(** * parallel_translation.py: a shallow embedding and its verified properties

    The program collects bilingual dialogue text through a curses text box,
    repairs mis-decoded accented characters, parses the text into
    (character, dialogue) pairs and emits a LaTeX document that sets the two
    languages side by side.

    Python strings are modelled as lists of Unicode code points, Python
    integers as [Z], Python lists as lists with Python's index rules
    (negative indices count from the end, out-of-range indexing raises).
    A raised exception is [None] in the option monad. *)

From stdpp Require Import base numbers option list strings.
From Stdlib Require Import Ascii.

Local Open Scope Z_scope.

(** ** Python strings *)

Module PyStr.

(** A code point; a [str] is a sequence of them. *)
Abbreviation char := N (only parsing).
Abbreviation str := (list N) (only parsing).

(** Reading an ASCII literal as a [str]. *)
Definition lit (s : string) : str := N_of_ascii <$> String.list_ascii_of_string s.

Definition LF : char := 10%N.

(** [text.startswith(old)] *)
Fixpoint starts_with (old text : str) : bool :=
  match old, text with
  | [], _ => true
  | _ :: _, [] => false
  | a :: old', c :: text' => N.eqb a c && starts_with old' text'
  end.

(** [old in text] *)
Fixpoint has_infix (old text : str) : bool :=
  starts_with old text ||
  match text with
  | [] => false
  | _ :: text' => has_infix old text'
  end.

(** The scan of [text.replace(old, new)] for a non-empty [old]: occurrences
    are found left to right and do not overlap; after a hit the scan resumes
    behind the occurrence.  [fuel] bounds the number of scan positions. *)
Fixpoint replace_loop (fuel : nat) (old new text : str) : str :=
  match fuel with
  | O => text
  | S fuel' =>
      match text with
      | [] => []
      | c :: rest =>
          if starts_with old text
          then new ++ replace_loop fuel' old new (drop (length old) text)
          else c :: replace_loop fuel' old new rest
      end
  end.

(** [text.replace(old, new)].  With an empty [old] Python puts [new] before
    every character and at the end. *)
Definition replace (old new text : str) : str :=
  match old with
  | [] => new ++ concat ((λ c, c :: new) <$> text)
  | _ :: _ => replace_loop (length text) old new text
  end.

(** [str.isspace] on one code point: the characters that [str.strip()]
    without argument removes. *)
Definition is_space (c : char) : bool :=
  ((9 <=? c) && (c <=? 13) || (28 <=? c) && (c <=? 32) ||
   (c =? 133) || (c =? 160) || (c =? 5760) ||
   (8192 <=? c) && (c <=? 8202) || (c =? 8232) || (c =? 8233) ||
   (c =? 8239) || (c =? 8287) || (c =? 12288))%N.

Fixpoint lstrip_by (drop_it : char → bool) (s : str) : str :=
  match s with
  | [] => []
  | c :: s' => if drop_it c then lstrip_by drop_it s' else s
  end.

Definition rstrip_by (drop_it : char → bool) (s : str) : str :=
  reverse (lstrip_by drop_it (reverse s)).

(** [s.strip()] *)
Definition strip (s : str) : str := rstrip_by is_space (lstrip_by is_space s).

(** [s.strip(chars)] *)
Definition strip_chars (chars s : str) : str :=
  let drop_it c := bool_decide (c ∈ chars) in
  rstrip_by drop_it (lstrip_by drop_it s).

(** [sep.join(parts)] *)
Fixpoint join (sep : str) (parts : list str) : str :=
  match parts with
  | [] => []
  | [p] => p
  | p :: ps => p ++ sep ++ join sep ps
  end.

(** [text.split(sep)] for a one-character separator: never empty. *)
Fixpoint split_on (sep : char) (text : str) : list str :=
  match text with
  | [] => [[]]
  | c :: text' =>
      if N.eqb c sep then [] :: split_on sep text'
      else match split_on sep text' with
           | [] => [[c]]
           | p :: ps => (c :: p) :: ps
           end
  end.

End PyStr.

Import PyStr.

(** ** fix_encoding *)

(** The substitution table of [fix_encoding], in the order the dictionary
    literal lists it (a Python dict iterates in insertion order). *)
Definition encoding_fixes : list (str * str) :=
  [ ([195; 161], [225]);   (* A-tilde, inverted-exclamation -> a-acute *)
    ([195; 169], [233]);   (* -> e-acute *)
    ([195; 173], [237]);   (* -> i-acute *)
    ([195; 179], [243]);   (* -> o-acute *)
    ([195; 186], [250]);   (* -> u-acute *)
    ([195; 177], [241]);   (* -> n-tilde *)
    ([195], [237]);        (* "Sometimes just the first part appears" *)
    ([194; 161], [161]);   (* A-circumflex, inverted-exclamation *)
    ([194; 191], [191]);   (* A-circumflex, inverted-question *)
    ([195; 129], [193]);   (* -> A-acute *)
    ([195; 137], [201]);   (* -> E-acute *)
    ([195; 141], [205]);   (* -> I-acute *)
    ([195; 147], [211]);   (* -> O-acute *)
    ([195; 154], [218]);   (* -> U-acute *)
    ([195; 145], [209])    (* -> N-tilde *)
  ]%N.

(** [for wrong, correct in table: text = text.replace(wrong, correct)] *)
Definition replace_all (table : list (str * str)) (text : str) : str :=
  foldl (λ t fix_, replace fix_.1 fix_.2 t) text table.

Definition fix_encoding (text : str) : str := replace_all encoding_fixes text.

(** Text in which no pattern of the table occurs. *)
Definition settled (text : str) : Prop :=
  (195%N ∉ text) ∧
  has_infix [194; 161]%N text = false ∧
  has_infix [194; 191]%N text = false.

(** No A-circumflex directly in front of a garbled inverted exclamation
    or question mark. *)
Definition undoubled (text : str) : Prop :=
  has_infix [194; 194; 161]%N text = false ∧
  has_infix [194; 194; 191]%N text = false.

(** ** parse_character_dialogue *)

Definition LBRACKET : char := 91%N.
Definition RBRACKET : char := 93%N.

(** The longest prefix of [s] free of [stop], and what follows it. *)
Fixpoint span_until (stop : char) (s : str) : str * str :=
  match s with
  | [] => ([], [])
  | c :: s' =>
      if N.eqb c stop then ([], s)
      else let '(a, b) := span_until stop s' in (c :: a, b)
  end.

(** The pattern [\[[^\]]+\]] anchored at the start of [text]: an opening
    bracket, one or more characters other than a closing bracket, a closing
    bracket.  Returns the matched text and the remainder. *)
Definition match_label (text : str) : option (str * str) :=
  match text with
  | c :: t =>
      if N.eqb c LBRACKET then
        match span_until RBRACKET t with
        | ((_ :: _) as name, _ :: rest) =>
            Some (LBRACKET :: name ++ [RBRACKET], rest)
        | _ => None
        end
      else None
  | [] => None
  end.

(** The scan of [re.split(r'(\[[^\]]+\])', text)]: [chunk] is the text
    since the last match; a match closes the chunk and is itself kept
    (the pattern is one capturing group). *)
Fixpoint split_loop (fuel : nat) (chunk text : str) : list str :=
  match fuel with
  | O => [chunk ++ text]
  | S fuel' =>
      match text with
      | [] => [chunk]
      | c :: rest =>
          match match_label text with
          | Some (label, after) => chunk :: label :: split_loop fuel' [] after
          | None => split_loop fuel' (chunk ++ [c]) rest
          end
      end
  end.

Definition re_split (text : str) : list str := split_loop (length text) [] text.

(** [re.match(r'\[.+\]', part)]: an opening bracket, then on the same line
    (the dot does not match a line feed) at least one character followed
    by a closing bracket. *)
Definition is_character (part : str) : bool :=
  match part with
  | c :: t =>
      N.eqb c LBRACKET &&
      match (span_until LF t).1 with
      | [] => false
      | _ :: more => bool_decide (RBRACKET ∈ more)
      end
  | [] => false
  end.

(** The variables of the parsing loop. *)
Record parse_state := ParseState {
  result : list (str * str);
  current_character : option str;
  current_dialogue : str
}.

Definition parse_step (ps : parse_state) (part : str) : parse_state :=
  if is_character part then
    {| result := match current_character ps with
                 | Some ch => result ps ++ [(ch, strip (current_dialogue ps))]
                 | None => result ps
                 end;
       current_character := Some part;
       current_dialogue := [] |}
  else
    {| result := result ps;
       current_character := current_character ps;
       current_dialogue := current_dialogue ps ++ part |}.

Definition parse_finish (ps : parse_state) : list (str * str) :=
  match current_character ps with
  | Some ch => result ps ++ [(ch, strip (current_dialogue ps))]
  | None => result ps
  end.

(** [if parts and not parts[0].strip(): parts.pop(0)] *)
Definition drop_blank_head (parts : list str) : list str :=
  match parts with
  | p :: ps => if bool_decide (strip p = []) then ps else parts
  | [] => []
  end.


Definition parse_parts (parts : list str) : list (str * str) :=
  parse_finish (foldl parse_step (ParseState [] None []) parts).

Definition parse_character_dialogue (text : str) : list (str * str) :=
  if bool_decide (strip text = []) then []
  else parse_parts (drop_blank_head (re_split (fix_encoding text))).


(** ** ScrollableTextbox: the line buffer *)

Module PyList.

(** The position a Python index denotes in a list of length [n]; [None]
    is IndexError. *)
Definition norm_index (n : nat) (i : Z) : option nat :=
  if decide (0 ≤ i < Z.of_nat n) then Some (Z.to_nat i)
  else if decide (- Z.of_nat n ≤ i < 0) then Some (Z.to_nat (Z.of_nat n + i))
  else None.

(** [l[i]] *)
Definition index {A} (l : list A) (i : Z) : option A :=
  k ← norm_index (length l) i; l !! k.

(** [l[i] = x] *)
Definition setitem {A} (l : list A) (i : Z) (x : A) : option (list A) :=
  k ← norm_index (length l) i; Some (<[k := x]> l).

(** [l.pop(i)], the list that remains *)
Definition pop {A} (l : list A) (i : Z) : option (list A) :=
  k ← norm_index (length l) i; Some (delete k l).

(** The position a slice bound denotes: negative bounds count from the
    end, and every bound is clipped to the list. *)
Definition slice_bound (n : nat) (i : Z) : nat :=
  Z.to_nat (if decide (i < 0) then Z.max (Z.of_nat n + i) 0
            else Z.min i (Z.of_nat n)).

(** [l.insert(i, x)]: never raises. *)
Definition insert {A} (l : list A) (i : Z) (x : A) : list A :=
  let k := slice_bound (length l) i in take k l ++ x :: drop k l.

(** [l[:i]] and [l[i:]] *)
Definition upto {A} (l : list A) (i : Z) : list A := take (slice_bound (length l) i) l.
Definition from {A} (l : list A) (i : Z) : list A := drop (slice_bound (length l) i) l.

Definition len {A} (l : list A) : Z := Z.of_nat (length l).

End PyList.

(** The fields of a [ScrollableTextbox] that the buffer operations read
    and write.  The curses windows, the width and the screen position only
    serve the drawing code and are left out; the calls into curses are
    taken to succeed. *)
Record textbox := Textbox {
  lines : list str;
  current_line : Z;
  current_col : Z;
  scroll_pos : Z;
  height : Z
}.

(** The fields as [__init__] sets them; it then draws the box, which
    runs [_update_display]. *)
Definition new_textbox (h : Z) : textbox := Textbox [[]] 0 0 0 h.

Definition with_cursor (tb : textbox) (line col : Z) : textbox :=
  Textbox (lines tb) line col (scroll_pos tb) (height tb).

Definition with_lines (tb : textbox) (ls : list str) : textbox :=
  Textbox ls (current_line tb) (current_col tb) (scroll_pos tb) (height tb).

Definition with_scroll (tb : textbox) (sp : Z) : textbox :=
  Textbox (lines tb) (current_line tb) (current_col tb) sp (height tb).

Definition _adjust_scroll (tb : textbox) : textbox :=
  if decide (current_line tb < scroll_pos tb) then
    with_scroll tb (current_line tb)
  else if decide (current_line tb >= scroll_pos tb + height tb) then
    with_scroll tb (current_line tb - height tb + 1)
  else tb.

(** What [_update_display] does to the state: it adjusts the scroll
    position and reads [lines[current_line]] to place the cursor. *)
Definition _update_display (tb : textbox) : option textbox :=
  let tb := _adjust_scroll tb in
  _ ← PyList.index (lines tb) (current_line tb);
  Some tb.

Definition _move_up (tb : textbox) : option textbox :=
  if decide (current_line tb > 0) then
    let line := current_line tb - 1 in
    target ← PyList.index (lines tb) line;
    Some (with_cursor tb line (Z.min (current_col tb) (PyList.len target)))
  else Some tb.

Definition _move_down (tb : textbox) : option textbox :=
  if decide (current_line tb < PyList.len (lines tb) - 1) then
    let line := current_line tb + 1 in
    target ← PyList.index (lines tb) line;
    Some (with_cursor tb line (Z.min (current_col tb) (PyList.len target)))
  else Some tb.

Definition _move_left (tb : textbox) : option textbox :=
  if decide (current_col tb > 0) then
    Some (with_cursor tb (current_line tb) (current_col tb - 1))
  else if decide (current_line tb > 0) then
    let line := current_line tb - 1 in
    target ← PyList.index (lines tb) line;
    Some (with_cursor tb line (PyList.len target))
  else Some tb.

Definition _move_right (tb : textbox) : option textbox :=
  current ← PyList.index (lines tb) (current_line tb);
  if decide (current_col tb < PyList.len current) then
    Some (with_cursor tb (current_line tb) (current_col tb + 1))
  else if decide (current_line tb < PyList.len (lines tb) - 1) then
    Some (with_cursor tb (current_line tb + 1) 0)
  else Some tb.

(** The KEY_HOME and KEY_END branches of [edit]. *)
Definition key_home (tb : textbox) : option textbox :=
  Some (with_cursor tb (current_line tb) 0).

Definition key_end (tb : textbox) : option textbox :=
  current ← PyList.index (lines tb) (current_line tb);
  Some (with_cursor tb (current_line tb) (PyList.len current)).

Definition _page_up (tb : textbox) : option textbox :=
  let line := Z.max 0 (current_line tb - height tb) in
  let sp := Z.max 0 (scroll_pos tb - height tb) in
  target ← PyList.index (lines tb) line;
  Some (Textbox (lines tb) line (Z.min (current_col tb) (PyList.len target))
                sp (height tb)).

Definition _page_down (tb : textbox) : option textbox :=
  let line := Z.min (PyList.len (lines tb) - 1) (current_line tb + height tb) in
  let sp := Z.min (PyList.len (lines tb) - 1) (scroll_pos tb + height tb) in
  target ← PyList.index (lines tb) line;
  Some (Textbox (lines tb) line (Z.min (current_col tb) (PyList.len target))
                sp (height tb)).

Definition _insert_char (c : char) (tb : textbox) : option textbox :=
  current ← PyList.index (lines tb) (current_line tb);
  ls ← PyList.setitem (lines tb) (current_line tb)
         (PyList.upto current (current_col tb) ++ [c] ++
          PyList.from current (current_col tb));
  Some (Textbox ls (current_line tb) (current_col tb + 1)
                (scroll_pos tb) (height tb)).

Definition _insert_newline (tb : textbox) : option textbox :=
  current ← PyList.index (lines tb) (current_line tb);
  ls ← PyList.setitem (lines tb) (current_line tb)
         (PyList.upto current (current_col tb));
  let ls := PyList.insert ls (current_line tb + 1)
              (PyList.from current (current_col tb)) in
  Some (Textbox ls (current_line tb + 1) 0 (scroll_pos tb) (height tb)).

Definition _backspace (tb : textbox) : option textbox :=
  if decide (current_col tb > 0) then
    current ← PyList.index (lines tb) (current_line tb);
    ls ← PyList.setitem (lines tb) (current_line tb)
           (PyList.upto current (current_col tb - 1) ++
            PyList.from current (current_col tb));
    Some (Textbox ls (current_line tb) (current_col tb - 1)
                  (scroll_pos tb) (height tb))
  else if decide (current_line tb > 0) then
    previous ← PyList.index (lines tb) (current_line tb - 1);
    let col := PyList.len previous in
    current ← PyList.index (lines tb) (current_line tb);
    ls ← PyList.setitem (lines tb) (current_line tb - 1) (previous ++ current);
    ls ← PyList.pop ls (current_line tb);
    Some (Textbox ls (current_line tb - 1) col (scroll_pos tb) (height tb))
  else Some tb.

Definition _delete (tb : textbox) : option textbox :=
  current ← PyList.index (lines tb) (current_line tb);
  if decide (current_col tb < PyList.len current) then
    ls ← PyList.setitem (lines tb) (current_line tb)
           (PyList.upto current (current_col tb) ++
            PyList.from current (current_col tb + 1));
    Some (with_lines tb ls)
  else if decide (current_line tb < PyList.len (lines tb) - 1) then
    next ← PyList.index (lines tb) (current_line tb + 1);
    ls ← PyList.setitem (lines tb) (current_line tb) (current ++ next);
    ls ← PyList.pop ls (current_line tb + 1);
    Some (with_lines tb ls)
  else Some tb.

(** [set_text]: the buffer is rebuilt from a string and redrawn. *)
Definition set_text (text : str) (tb : textbox) : option textbox :=
  let ls := split_on LF text in
  let ls := match ls with [] => [[]] | _ => ls end in
  _update_display (Textbox ls 0 0 0 (height tb)).

(** ** ScrollableTextbox.edit: the key loop *)

(** Key codes of the curses library. *)
Module curses.
Definition KEY_DOWN : Z := 258.
Definition KEY_UP : Z := 259.
Definition KEY_LEFT : Z := 260.
Definition KEY_RIGHT : Z := 261.
Definition KEY_HOME : Z := 262.
Definition KEY_BACKSPACE : Z := 263.
Definition KEY_DC : Z := 330.
Definition KEY_NPAGE : Z := 338.
Definition KEY_PPAGE : Z := 339.
Definition KEY_END : Z := 360.
Definition KEY_RESIZE : Z := 410.
End curses.

(** [chr(ch)]: ValueError outside the range of code points. *)
Definition chr (ch : Z) : option char :=
  if decide (0 ≤ ch ≤ 1114111) then Some (Z.to_N ch) else None.

(** The branches of [edit] below the Ctrl+G test.  [_handle_resize] and
    [_handle_paste] only touch the curses windows. *)
Definition dispatch (ch : Z) (tb : textbox) : option textbox :=
  if decide (ch = curses.KEY_UP) then _move_up tb
  else if decide (ch = curses.KEY_DOWN) then _move_down tb
  else if decide (ch = curses.KEY_LEFT) then _move_left tb
  else if decide (ch = curses.KEY_RIGHT) then _move_right tb
  else if decide (ch = curses.KEY_HOME) then key_home tb
  else if decide (ch = curses.KEY_END) then key_end tb
  else if decide (ch = curses.KEY_PPAGE) then _page_up tb
  else if decide (ch = curses.KEY_NPAGE) then _page_down tb
  else if decide (ch = 10) then _insert_newline tb
  else if decide (ch = 127 ∨ ch = curses.KEY_BACKSPACE) then _backspace tb
  else if decide (ch = curses.KEY_DC) then _delete tb
  else if decide (ch = curses.KEY_RESIZE) then Some tb
  else if decide (ch = 22) then Some tb
  else if decide (32 ≤ ch ≤ 126 ∨ ch > 127) then
    c ← chr ch; _insert_char c tb
  else Some tb.

(** Where an interruption (KeyboardInterrupt) reaches the loop: inside the
    [try] block, which covers the read of a key and its dispatch, or during
    the redraw at the top of the iteration, which the [try] does not cover. *)
Inductive interrupt_point := InTry | InRedraw.

(** What the environment delivers to one iteration of the loop. *)
Inductive event :=
  | Key (ch : Z)
  | Interrupt (at_ : interrupt_point).

Inductive exn := KeyboardInterrupt | IndexError | ValueError.

(** How a call of [edit] ends on a finite run of events: it returns a
    string, an exception leaves it, or it still waits for a key. *)
Inductive outcome :=
  | Returned (text : str)
  | Raised (e : exn)
  | Waiting (tb : textbox).

Definition exn_of_dispatch (ch : Z) : exn :=
  if decide (0 ≤ ch ≤ 1114111) then IndexError else ValueError.

Fixpoint edit (events : list event) (tb : textbox) : outcome :=
  match events with
  | [] => Waiting tb
  | Interrupt InRedraw :: _ => Raised KeyboardInterrupt
  | ev :: events' =>
      match _update_display tb with
      | None => Raised IndexError
      | Some tb =>
          match ev with
          | Interrupt _ => Returned []
          | Key ch =>
              if decide (ch = 7) then
                Returned (fix_encoding (join [LF] (lines tb)))
              else
                match dispatch ch tb with
                | Some tb' => edit events' tb'
                | None => Raised (exn_of_dispatch ch)
                end
          end
      end
  end.

(** The cursor keys and the operation each one runs in [edit]. *)
Inductive cursor_key := Up | Down | Left | Right | Home | End_ | PageUp | PageDown.

Definition cursor_move (k : cursor_key) : textbox → option textbox :=
  match k with
  | Up => _move_up
  | Down => _move_down
  | Left => _move_left
  | Right => _move_right
  | Home => key_home
  | End_ => key_end
  | PageUp => _page_up
  | PageDown => _page_down
  end.

Definition key_code (k : cursor_key) : Z :=
  match k with
  | Up => curses.KEY_UP
  | Down => curses.KEY_DOWN
  | Left => curses.KEY_LEFT
  | Right => curses.KEY_RIGHT
  | Home => curses.KEY_HOME
  | End_ => curses.KEY_END
  | PageUp => curses.KEY_PPAGE
  | PageDown => curses.KEY_NPAGE
  end.

(** One iteration of the loop on a key other than Ctrl+G: redraw, then
    dispatch. *)
Definition iteration (ch : Z) (tb : textbox) : option textbox :=
  tb ← _update_display tb; dispatch ch tb.

(** The states after each of a sequence of keys, oldest first. *)
Fixpoint run_keys (keys : list Z) (tb : textbox) : option (list textbox) :=
  match keys with
  | [] => Some []
  | ch :: keys' =>
      tb' ← iteration ch tb;
      trace ← run_keys keys' tb';
      Some (tb' :: trace)
  end.

(** The states a text box can be in: a new box (curses refuses to create a
    window with a negative number of lines), then any redraws, any keys in
    [edit] and any calls of [set_text]. *)
Inductive reachable : textbox → Prop :=
  | reach_new h : 0 ≤ h → reachable (new_textbox h)
  | reach_display tb tb' :
      reachable tb → _update_display tb = Some tb' → reachable tb'
  | reach_key ch tb tb' :
      reachable tb → iteration ch tb = Some tb' → reachable tb'
  | reach_set_text text tb tb' :
      reachable tb → set_text text tb = Some tb' → reachable tb'.

(** The invariants of the line buffer. *)
Record buffer_inv (tb : textbox) : Prop := BufferInv {
  inv_lines : (1 ≤ length (lines tb))%nat;
  inv_line : 0 ≤ current_line tb < PyList.len (lines tb);
  inv_col : ∃ current, lines tb !! Z.to_nat (current_line tb) = Some current ∧
                       0 ≤ current_col tb ≤ PyList.len current
}.

(** The buffer invariants together with what the scrolling code relies on. *)
Record textbox_ok (tb : textbox) : Prop := TextboxOk {
  ok_buffer : buffer_inv tb;
  ok_scroll : 0 ≤ scroll_pos tb;
  ok_height : 0 ≤ height tb
}.

(** An operation that returns, and returns a state within the invariants. *)
Definition keeps_ok (op : textbox → option textbox) : Prop :=
  ∀ tb, textbox_ok tb → ∃ tb', op tb = Some tb' ∧ textbox_ok tb'.

(** Keys that are dispatched: every key but Ctrl+G, within the range of
    code points. *)
Definition dispatched (ch : Z) : Prop := ch ≠ 7 ∧ ch ≤ 1114111.

(** The length of the cursor line, and the index of the last line. *)
Definition line_length (tb : textbox) : Z :=
  match lines tb !! Z.to_nat (current_line tb) with
  | Some current => PyList.len current
  | None => 0
  end.

Definition last_line (tb : textbox) : Z := PyList.len (lines tb) - 1.

(** ** generate_latex *)

(** The fixed text of the document: up to the title, between title and
    author, from the author to the first entry, and after the last entry. *)
Definition preamble : str := lit "\documentclass[12pt,a4paper]{article}
\usepackage[margin=1in]{geometry}
\usepackage{parallel}
\usepackage{fontspec}
\usepackage{polyglossia}
\usepackage{microtype}
\usepackage{titlesec}
\usepackage{fancyhdr}
\usepackage{xcolor}
\usepackage[utf8]{inputenc}

% Set up multilingual support
\setmainlanguage{english}
\setotherlanguage{spanish} % For Spanish support

% Use a font with good Unicode support
\setmainfont{DejaVu Serif}
\setsansfont{DejaVu Sans}

% Character name styling
\newcommand{\charname}[1]{\textbf{\textcolor{blue}{#1}}}

% Custom title format
\titleformat{\section}
  {\normalfont\Large\bfseries}{\thesection}{1em}{}

% Page style setup
\pagestyle{fancy}
\fancyhf{}
\rhead{Parallel Translation}
\lhead{\thepage}
\renewcommand{\headrulewidth}{0.4pt}
\renewcommand{\footrulewidth}{0.4pt}

\title{".

Definition after_title : str := lit "}
\author{".

Definition after_author : str := lit "}
\date{\today}

\begin{document}

\maketitle

\begin{Parallel}{0.48\textwidth}{0.48\textwidth}
".

Definition closing : str := lit "
\end{Parallel}

\end{document}
".

(** The table of [escape_latex_special_chars], in dictionary order. *)
Definition latex_special_chars : list (str * str) :=
  [ (lit "&", lit "\&");
    (lit "%", lit "\%");
    (lit "$", lit "\$");
    (lit "#", lit "\#");
    (lit "_", lit "\_");
    (lit "{", lit "\{");
    (lit "}", lit "\}");
    (lit "~", lit "\textasciitilde{}");
    (lit "^", lit "\textasciicircum{}");
    (lit "\", lit "\textbackslash{}");
    (lit "<", lit "\textless{}");
    (lit ">", lit "\textgreater{}") ].

Definition escape_latex_special_chars (text : str) : str :=
  replace_all latex_special_chars text.

(** What the string holds before the loop over the entries. *)
Definition document_head (title author : str) : str :=
  preamble ++ escape_latex_special_chars title ++ after_title ++
  escape_latex_special_chars author ++ after_author.

(** One side of an entry: the character name without brackets and the
    dialogue text, both repaired and escaped. *)
Definition side_text (command : str) (entry : str * str) : str :=
  let char_formatted :=
    escape_latex_special_chars (fix_encoding (strip_chars (lit "[]") entry.1)) in
  let text := escape_latex_special_chars (fix_encoding entry.2) in
  command ++ [LF] ++
  lit "\charname{" ++ char_formatted ++ lit "}" ++ [LF] ++
  replace [LF] (lit "\\" ++ [LF]) text ++ [LF] ++
  lit "}" ++ [LF].

(** What iteration [i] of the loop appends. *)
Definition entry_text (num_dialogues i : Z) (left right : str * str) : str :=
  side_text (lit "\ParallelLText{%") left ++
  side_text (lit "\ParallelRText{%") right ++
  (if decide (i < num_dialogues - 1) then lit "\ParallelPar" ++ [LF] else []).

Definition generate_latex (title author : str)
    (left_dialogues right_dialogues : list (str * str)) : option str :=
  let latex := document_head title author in
  let num_dialogues :=
    Z.min (PyList.len left_dialogues) (PyList.len right_dialogues) in
  latex ← foldl (λ acc i,
                   latex ← acc;
                   left ← PyList.index left_dialogues i;
                   right ← PyList.index right_dialogues i;
                   Some (latex ++ entry_text num_dialogues i left right))
                (Some latex) (seqZ 0 num_dialogues);
  Some (latex ++ closing).

(** How often [old] occurs in [text], overlapping occurrences included. *)
Fixpoint count_infix (old text : str) : nat :=
  ((if starts_with old text then 1 else 0) +
   match text with
   | [] => 0
   | _ :: text' => count_infix old text'
   end)%nat.

(** Every backslash of [text] is directly followed by the letter t. *)
Fixpoint backslash_t (text : str) : bool :=
  match text with
  | [] => true
  | c :: rest =>
      (if N.eqb c 92 then starts_with [116%N] rest else true) && backslash_t rest
  end.

(** The key codes that [edit] takes for a command instead of a character. *)
Definition command_keys : list Z :=
  [ curses.KEY_UP; curses.KEY_DOWN; curses.KEY_LEFT; curses.KEY_RIGHT;
    curses.KEY_HOME; curses.KEY_END; curses.KEY_PPAGE; curses.KEY_NPAGE;
    curses.KEY_BACKSPACE; curses.KEY_DC; curses.KEY_RESIZE ].

(** The characters that reach the buffer when their code is read as a
    key: the line feed, printable ASCII, and a code point above 127 that is
    not the code of a command key. *)
Definition typable (c : char) : Prop :=
  c = LF ∨ (32 ≤ c ≤ 126)%N ∨
  ((127 < c ≤ 1114111)%N ∧ Z.of_N c ∉ command_keys).

(** The keys that type [text]. *)
Definition type_keys (text : str) : list event := (λ c, Key (Z.of_N c)) <$> text.

(** The cursor stands at the end of the last line. *)
Definition at_end (tb : textbox) : Prop :=
  ∃ before last,
    lines tb = before ++ [last] ∧
    current_line tb = PyList.len before ∧
    current_col tb = PyList.len last.

(** ** main: the name of the output file *)

(** The file name [main] derives from the title.  [isalnum] stands for
    Python's [str.isalnum] on one character. *)
Definition safe_title (isalnum : char → bool) (title : str) : str :=
  let kept :=
    (λ c, if isalnum c || bool_decide (c ∈ lit "._- ") then c else 95%N) <$> title in
  let safe := replace (lit " ") (lit "_") kept in
  match safe with
  | [] => lit "parallel_translation"
  | _ :: _ => safe
  end.

Definition output_filename (isalnum : char → bool) (title : str) : str :=
  safe_title isalnum title ++ lit "_parallel.tex".

(** * Properties *)

(** [x ∉ [a; b; ...]] for distinct literals. *)
Ltac solve_not_elem :=
  repeat (apply not_elem_of_cons; split; [done|]); apply not_elem_of_nil.

(** ** Facts about [replace] *)

Section replace_facts.

Lemma starts_with_app old rest : starts_with old (old ++ rest) = true.
Proof.
  induction old as [|a old IH]; simpl; [done|].
  by rewrite N.eqb_refl.
Qed.

Lemma starts_with_prefix old text :
  starts_with old text = true → text = old ++ drop (length old) text.
Proof.
  revert text. induction old as [|a old IH]; intros [|c text]; simpl; try done.
  intros [Hac Hrest]%andb_true_iff. apply N.eqb_eq in Hac as ->.
  f_equal. by apply IH.
Qed.

Lemma starts_with_elem old text x :
  starts_with old text = true → x ∈ old → x ∈ text.
Proof.
  intros H Hx. rewrite (starts_with_prefix _ _ H). apply elem_of_app. by left.
Qed.

Lemma has_infix_cons old c text :
  has_infix old (c :: text) = starts_with old (c :: text) || has_infix old text.
Proof. done. Qed.

Lemma has_infix_elem old text x :
  has_infix old text = true → x ∈ old → x ∈ text.
Proof.
  induction text as [|c text IH].
  - simpl. rewrite orb_false_r. apply starts_with_elem.
  - rewrite has_infix_cons. intros [H|H]%orb_true_iff Hx.
    + by eapply starts_with_elem.
    + right. by apply IH.
Qed.

Lemma has_infix_drop old n text :
  has_infix old (drop n text) = true → has_infix old text = true.
Proof.
  revert text. induction n as [|n IH]; intros [|c text]; simpl drop; try done.
  intros H. rewrite has_infix_cons, (IH _ H). apply orb_true_r.
Qed.

Lemma replace_loop_fuel old new f1 : ∀ f2 text,
  old ≠ [] → (length text ≤ f1)%nat → (length text ≤ f2)%nat →
  replace_loop f1 old new text = replace_loop f2 old new text.
Proof.
  induction f1 as [|f1 IH]; intros [|f2] [|c text] Hold H1 H2;
    simpl in *; try done; try lia.
  destruct (N.eqb_spec 0 0); [|done].
  destruct old as [|a old]; [done|].
  case_match; [|f_equal; apply IH; [done|lia..]].
  f_equal. apply IH; [done|..]; simpl; rewrite length_drop; lia.
Qed.

Lemma replace_nil old new : old ≠ [] → replace old new [] = [].
Proof. by destruct old. Qed.

Lemma replace_hit old new c text :
  old ≠ [] → starts_with old (c :: text) = true →
  replace old new (c :: text) =
  new ++ replace old new (drop (length old) (c :: text)).
Proof.
  intros Hold Hhit. destruct old as [|a old]; [done|].
  unfold replace. cbn [length replace_loop]. rewrite Hhit. f_equal.
  apply replace_loop_fuel; [done|..]; cbn [length drop]; rewrite length_drop; lia.
Qed.

Lemma replace_miss old new c text :
  old ≠ [] → starts_with old (c :: text) = false →
  replace old new (c :: text) = c :: replace old new text.
Proof.
  intros Hold Hmiss. destruct old as [|a old]; [done|].
  unfold replace. cbn [length replace_loop]. by rewrite Hmiss.
Qed.

(** Induction along the scan of [replace]. *)
Lemma replace_ind old new (P : str → str → Prop) :
  old ≠ [] →
  P [] [] →
  (∀ c text,
     starts_with old (c :: text) = true →
     P (drop (length old) (c :: text))
       (replace old new (drop (length old) (c :: text))) →
     P (c :: text) (new ++ replace old new (drop (length old) (c :: text)))) →
  (∀ c text,
     starts_with old (c :: text) = false →
     P text (replace old new text) →
     P (c :: text) (c :: replace old new text)) →
  ∀ text, P text (replace old new text).
Proof.
  intros Hold Hnil Hhit Hmiss text.
  cut (∀ n (t : str), (length t < n)%nat → P t (replace old new t)).
  { intros H. apply (H (S (length text))). lia. }
  clear text. intros n. induction n as [|n IH]; intros t Hlt; [lia|].
  destruct t as [|c u]; [by rewrite replace_nil|].
  destruct (starts_with old (c :: u)) eqn:E.
  - rewrite replace_hit by done. apply Hhit; [done|]. apply IH.
    destruct old as [|a old]; [done|].
    cbn [length drop] in *. rewrite length_drop. lia.
  - rewrite replace_miss by done. apply Hmiss; [done|]. apply IH.
    simpl in Hlt. lia.
Qed.

End replace_facts.

(** ** Facts about the replacement of a pattern by one character *)

Section replace_by_char.

Lemma replace_absent old new text :
  has_infix old text = false → replace old new text = text.
Proof.
  destruct old as [|a old]; [by destruct text|].
  induction text as [|c text IH]; [done|].
  rewrite has_infix_cons. intros [Hc Hrest]%orb_false_iff.
  rewrite replace_miss by done. f_equal. by apply IH.
Qed.

Lemma replace_not_elem old new text x :
  old ≠ [] → x ∉ new → x ∉ text → x ∉ replace old new text.
Proof.
  intros Hold Hnew. revert text.
  apply (replace_ind old new (λ t r, x ∉ t → x ∉ r)); [done|done|..].
  - intros c text _ IH Hx. rewrite elem_of_app. intros [?|Hin]; [done|].
    revert Hin. apply IH. intros Hin. apply Hx.
    rewrite <- (take_drop (length old) (c :: text)). apply elem_of_app. by right.
  - intros c text _ IH Hx. apply not_elem_of_cons in Hx as [? ?].
    apply not_elem_of_cons. auto.
Qed.

Lemma replace_nonempty old new text :
  old ≠ [] → new ≠ [] → text ≠ [] → replace old new text ≠ [].
Proof.
  intros Hold Hnew. revert text.
  apply (replace_ind old new (λ t r, t ≠ [] → r ≠ [])); [done|done|..].
  - intros c text _ _ _. by destruct new.
  - done.
Qed.

(** A one-character pattern is gone after its replacement. *)
Lemma replace_char_gone a c text :
  a ≠ c → a ∉ replace [a] [c] text.
Proof.
  intros Hac.
  apply (replace_ind [a] [c] (λ _ r, a ∉ r)); [done|..].
  - apply not_elem_of_nil.
  - intros x t _ IH. apply not_elem_of_cons. done.
  - intros x t Hx IH. apply not_elem_of_cons. split; [|done].
    simpl in Hx. rewrite andb_true_r in Hx. by apply N.eqb_neq in Hx.
Qed.

(** What the output of a replacement starts with was in the input, as
    long as it avoids the replacement character. *)
Lemma replace_starts_with old c q text :
  old ≠ [] → c ∉ q →
  starts_with q (replace old [c] text) = true → starts_with q text = true.
Proof.
  intros Hold. revert text q.
  apply (replace_ind old [c] (λ t r, ∀ q, c ∉ q →
           starts_with q r = true → starts_with q t = true)); [done|done|..].
  - intros x t _ _ [|a q] Hq; [done|]. simpl.
    intros [Hac _]%andb_true_iff. apply N.eqb_eq in Hac as ->.
    exfalso. apply Hq. by left.
  - intros x t _ IH [|a q] Hq; [done|]. simpl.
    intros [Hax Hrest]%andb_true_iff. rewrite Hax. simpl.
    apply IH; [|done]. intros Hin. apply Hq. by right.
Qed.

(** A replacement by a character outside [q] creates no occurrence of [q]. *)
Lemma replace_no_new_infix old c q text :
  old ≠ [] → q ≠ [] → c ∉ q →
  has_infix q text = false → has_infix q (replace old [c] text) = false.
Proof.
  intros Hold Hq Hc. revert text.
  apply (replace_ind old [c] (λ t r,
           has_infix q t = false → has_infix q r = false)); [done|done|..].
  - intros x t _ IH Hno. cbn [app]. rewrite has_infix_cons.
    apply orb_false_iff. split.
    + destruct q as [|a q]; [done|]. simpl.
      destruct (N.eqb_spec a c) as [->|]; [|done].
      exfalso. apply Hc. by left.
    + apply IH. apply not_true_is_false. intros H.
      apply has_infix_drop in H. congruence.
  - intros x t Hmiss IH. rewrite has_infix_cons.
    intros [Hx Hno]%orb_false_iff.
    rewrite has_infix_cons. apply orb_false_iff. split; [|by apply IH].
    apply not_true_is_false. intros H.
    rewrite <- (replace_miss old [c]) in H by done.
    apply replace_starts_with in H; [congruence|done..].
Qed.

(** The pattern [a b] replaced by [b]: a new occurrence of the pattern
    needs a doubled [a] in front of a [b]. *)
Lemma replace_pair_settles a b text :
  a ≠ b →
  has_infix [a; a; b] text = false →
  has_infix [a; b] (replace [a; b] [b] text) = false.
Proof.
  intros Hab. revert text.
  apply (replace_ind [a; b] [b] (λ t r,
           has_infix [a; a; b] t = false → has_infix [a; b] r = false));
    [done|done|..].
  - intros x t _ IH Hno. cbn [app]. rewrite has_infix_cons.
    apply orb_false_iff. split.
    + simpl. by destruct (N.eqb_spec a b).
    + apply IH. apply not_true_is_false. intros H.
      apply has_infix_drop in H. congruence.
  - intros x t Hmiss IH. rewrite has_infix_cons.
    intros [Hx Hno]%orb_false_iff.
    rewrite has_infix_cons. apply orb_false_iff. split; [|by apply IH].
    apply not_true_is_false. intros H.
    cbn [starts_with] in H. apply andb_true_iff in H as [Hax H].
    apply N.eqb_eq in Hax as <-.
    destruct t as [|y t]; [by rewrite replace_nil in H|].
    destruct (starts_with [a; b] (y :: t)) eqn:E.
    + cbn [starts_with] in E, Hx.
      apply andb_true_iff in E as [Hay E]. apply N.eqb_eq in Hay as <-.
      rewrite E, (N.eqb_refl a) in Hx. done.
    + rewrite replace_miss in H by done. cbn [starts_with] in H, Hmiss.
      rewrite N.eqb_refl in Hmiss. destruct (b =? y)%N; [|done].
      simpl in Hmiss. done.
Qed.

End replace_by_char.

(** ** fix_encoding *)

Lemma replace_all_cons old new table text :
  replace_all ((old, new) :: table) text = replace_all table (replace old new text).
Proof. done. Qed.

Lemma replace_all_absent table text :
  Forall (λ fix_, has_infix fix_.1 text = false) table →
  replace_all table text = text.
Proof.
  induction 1 as [|[old new] table Hold _ IH]; [done|].
  rewrite replace_all_cons, replace_absent; done.
Qed.

Lemma absent_without_elem old text x :
  x ∈ old → x ∉ text → has_infix old text = false.
Proof.
  intros Hx Hno. apply not_true_is_false. intros H.
  apply Hno. by eapply has_infix_elem.
Qed.

Lemma settled_fixed text : settled text → fix_encoding text = text.
Proof.
  intros (HA & H1 & H2). apply replace_all_absent.
  repeat apply Forall_cons_2; try apply Forall_nil_2; cbn [fst]; try done;
    (eapply absent_without_elem; [|exact HA]); by left.
Qed.

Lemma undoubled_replace old c text :
  old ≠ [] → c ∉ [194; 161; 191]%N →
  undoubled text → undoubled (replace old [c] text).
Proof.
  intros Hold Hc [H1 H2].
  split; (apply replace_no_new_infix; [done|done| |done]);
    intros Hin; apply Hc; repeat apply elem_of_cons in Hin as [->|Hin];
    try (by apply elem_of_nil in Hin);
    repeat (first [by left | right]).
Qed.

Lemma undoubled_replace_all table text :
  Forall (λ fix_, fix_.1 ≠ [] ∧ ∃ c, fix_.2 = [c] ∧ c ∉ [194; 161; 191]%N) table →
  undoubled text → undoubled (replace_all table text).
Proof.
  intros Htable. revert text.
  induction Htable as [|[old new] table (Hold & c & Hnew & Hc) _ IH];
    intros text Htext; [done|].
  simpl in Hold, Hnew. subst new. rewrite replace_all_cons. by apply IH, undoubled_replace.
Qed.

Lemma fix_encoding_stages s :
  fix_encoding s =
  replace_all (drop 9 encoding_fixes)
    (replace [194; 191]%N [191]%N
       (replace [194; 161]%N [161]%N
          (replace [195]%N [237]%N (replace_all (take 6 encoding_fixes) s)))).
Proof. done. Qed.

Lemma fix_encoding_settles s : undoubled s → settled (fix_encoding s).
Proof.
  intros Hs. rewrite fix_encoding_stages.
  apply (undoubled_replace_all (take 6 encoding_fixes)) in Hs.
  2:{ repeat apply Forall_cons_2; try apply Forall_nil_2; cbn [fst snd];
        (split; [done|eexists; split; [done|]]);
        solve_not_elem. }
  set (t6 := replace_all (take 6 encoding_fixes) s) in *. clearbody t6.
  apply (undoubled_replace [195]%N 237%N) in Hs as [H1 H2];
    [|done|solve_not_elem].
  assert (HA : 195%N ∉ replace [195]%N [237]%N t6)
    by (by apply replace_char_gone).
  set (t7 := replace [195]%N [237]%N t6) in *. clearbody t7. clear t6.
  apply (replace_pair_settles 194 161)%N in H1; [|done].
  apply (replace_no_new_infix [194; 161]%N 161%N) in H2;
    [|done|done|solve_not_elem].
  apply (replace_not_elem [194; 161]%N [161]%N) in HA;
    [|done|solve_not_elem].
  set (t8 := replace [194; 161]%N [161]%N t7) in *. clearbody t8. clear t7.
  apply (replace_pair_settles 194 191)%N in H2; [|done].
  apply (replace_no_new_infix [194; 191]%N 191%N) in H1;
    [|done|done|solve_not_elem].
  apply (replace_not_elem [194; 191]%N [191]%N) in HA;
    [|done|solve_not_elem].
  set (t9 := replace [194; 191]%N [191]%N t8) in *. clearbody t9. clear t8.
  rewrite replace_all_absent; [done|].
  repeat apply Forall_cons_2; try apply Forall_nil_2; cbn [fst];
    (eapply absent_without_elem; [|exact HA]); by left.
Qed.

(** C3, as stated, fails: a doubled A-circumflex in front of an inverted
    exclamation mark loses one A-circumflex per pass. *)
Lemma fix_encoding_not_idempotent :
  fix_encoding (fix_encoding [194; 194; 161]%N) ≠ fix_encoding [194; 194; 161]%N.
Proof. by vm_compute. Qed.

(** C3, amended: on every string in which no A-circumflex stands directly
    in front of the garbled form of an inverted exclamation or question
    mark, a second pass of the normalizer changes nothing. *)
Theorem fix_encoding_idempotent (s : str) :
  has_infix [194; 194; 161]%N s = false →
  has_infix [194; 194; 191]%N s = false →
  fix_encoding (fix_encoding s) = fix_encoding s.
Proof. intros H1 H2. by apply settled_fixed, fix_encoding_settles. Qed.

Lemma fix_encoding_idempotent_witness :
  fix_encoding (fix_encoding (lit "ma" ++ [195; 177]%N ++ lit "ana")) =
  fix_encoding (lit "ma" ++ [195; 177]%N ++ lit "ana").
Proof. apply fix_encoding_idempotent; reflexivity. Defined.

(** ** Replacement across a character that no pattern contains *)

Section separators.

Lemma starts_with_app_sep old pre x post :
  x ∉ old → starts_with old (pre ++ x :: post) = starts_with old pre.
Proof.
  revert pre. induction old as [|a old IH]; intros [|c pre] Hx; simpl; try done.
  - apply not_elem_of_cons in Hx as [Hx _].
    destruct (N.eqb_spec a x); [congruence|done].
  - apply not_elem_of_cons in Hx as [_ Hx]. by rewrite IH.
Qed.

Lemma starts_with_length old text :
  starts_with old text = true → (length old ≤ length text)%nat.
Proof.
  intros H. rewrite (starts_with_prefix _ _ H), length_app. lia.
Qed.

Lemma replace_app_sep old new pre x post :
  old ≠ [] → x ∉ old →
  replace old new (pre ++ x :: post) =
  replace old new pre ++ x :: replace old new post.
Proof.
  intros Hold Hx. revert pre.
  apply (replace_ind old new (λ t r,
           replace old new (t ++ x :: post) = r ++ x :: replace old new post));
    [done|..].
  - simpl. apply replace_miss; [done|].
    etrans; [apply (starts_with_app_sep old [] x post Hx)|by destruct old].
  - intros c t Hhit IH.
    change ((c :: t) ++ x :: post) with (c :: (t ++ x :: post)).
    rewrite replace_hit; [|done|].
    2:{ change (c :: (t ++ x :: post)) with ((c :: t) ++ x :: post).
        by rewrite starts_with_app_sep. }
    change (c :: (t ++ x :: post)) with ((c :: t) ++ x :: post).
    rewrite drop_app_le by by apply starts_with_length.
    by rewrite IH, (assoc_L (++)).
  - intros c t Hmiss IH.
    change ((c :: t) ++ x :: post) with (c :: (t ++ x :: post)).
    rewrite replace_miss; [|done|].
    2:{ change (c :: (t ++ x :: post)) with ((c :: t) ++ x :: post).
        by rewrite starts_with_app_sep. }
    by rewrite IH.
Qed.

Lemma replace_all_app_sep table pre x post :
  Forall (λ fix_, fix_.1 ≠ [] ∧ x ∉ fix_.1) table →
  replace_all table (pre ++ x :: post) =
  replace_all table pre ++ x :: replace_all table post.
Proof.
  intros Htable. revert pre post.
  induction Htable as [|[old new] table [Hold Hx] _ IH]; intros pre post; [done|].
  rewrite !replace_all_cons, replace_app_sep by done. apply IH.
Qed.

Lemma replace_all_not_elem table text x :
  Forall (λ fix_, fix_.1 ≠ [] ∧ x ∉ fix_.2) table →
  x ∉ text → x ∉ replace_all table text.
Proof.
  intros Htable. revert text.
  induction Htable as [|[old new] table [Hold Hx] _ IH]; intros text Ht; [done|].
  rewrite replace_all_cons. by apply IH, replace_not_elem.
Qed.

Lemma replace_all_nonempty table text :
  Forall (λ fix_, fix_.1 ≠ [] ∧ fix_.2 ≠ []) table →
  text ≠ [] → replace_all table text ≠ [].
Proof.
  intros Htable. revert text.
  induction Htable as [|[old new] table [Hold Hx] _ IH]; intros text Ht; [done|].
  rewrite replace_all_cons. by apply IH, replace_nonempty.
Qed.

Local Ltac table_facts :=
  repeat apply Forall_cons_2; try apply Forall_nil_2; cbn [fst snd];
  (split; [done|]); first [done | solve_not_elem].

(** The brackets occur in no pattern and in no replacement of
    [fix_encoding]. *)
Lemma fix_encoding_app_bracket b pre post :
  b = LBRACKET ∨ b = RBRACKET →
  fix_encoding (pre ++ b :: post) = fix_encoding pre ++ b :: fix_encoding post.
Proof.
  intros [-> | ->]; apply replace_all_app_sep; table_facts.
Qed.

Lemma fix_encoding_no_bracket b text :
  b = LBRACKET ∨ b = RBRACKET → b ∉ text → b ∉ fix_encoding text.
Proof.
  intros [-> | ->]; apply replace_all_not_elem; table_facts.
Qed.

Lemma fix_encoding_nonempty text : text ≠ [] → fix_encoding text ≠ [].
Proof. apply replace_all_nonempty. table_facts. Qed.

End separators.

(** ** The amendment of idempotence is exact *)

Section doubled.

Lemma has_infix_here q text :
  starts_with q text = true → has_infix q text = true.
Proof. intros H. destruct text; simpl in *; by rewrite H. Qed.

Lemma has_infix_later q c text :
  has_infix q text = true → has_infix q (c :: text) = true.
Proof. intros H. rewrite has_infix_cons, H. apply orb_true_r. Qed.

(** A pattern whose first character does not occur in [q] leaves a
    leading [q] in place. *)
Lemma replace_keeps_start a old new q : ∀ text,
  a ∉ q → starts_with q text = true →
  starts_with q (replace (a :: old) new text) = true.
Proof.
  induction q as [|q0 q IH]; intros [|x text] Hq; cbn [starts_with]; try done.
  apply not_elem_of_cons in Hq as [Ha Hq].
  intros [Hx Hrest]%andb_true_iff. apply N.eqb_eq in Hx as <-.
  rewrite replace_miss; [|done|].
  - cbn [starts_with]. rewrite N.eqb_refl. by apply IH.
  - cbn [starts_with]. by destruct (N.eqb_spec a q0).
Qed.

Lemma replace_char_keeps_infix a c q text :
  a ∉ q → has_infix q text = true → has_infix q (replace [a] [c] text) = true.
Proof.
  intros Hq. revert text.
  apply (replace_ind [a] [c] (λ t r,
           has_infix q t = true → has_infix q r = true)); [done|done|..].
  - intros x t Hhit IH. rewrite has_infix_cons.
    intros [Hx|Hin]%orb_true_iff.
    + destruct q as [|q0 q]; [done|]. exfalso.
      simpl in Hhit, Hx. rewrite andb_true_r in Hhit.
      apply N.eqb_eq in Hhit as <-.
      apply andb_true_iff in Hx as [->%N.eqb_eq _]. apply Hq. by left.
    + by apply has_infix_later, IH.
  - intros x t Hmiss IH. rewrite has_infix_cons.
    intros [Hx|Hin]%orb_true_iff.
    + apply has_infix_here. rewrite <- (replace_miss [a] [c]) by done.
      by apply replace_keeps_start.
    + by apply has_infix_later, IH.
Qed.

Lemma replace_pair_keeps_infix a b c q0 q text :
  a ∉ q0 :: q → b ≠ q0 →
  has_infix (q0 :: q) text = true →
  has_infix (q0 :: q) (replace [a; b] [c] text) = true.
Proof.
  intros Hq Hb. revert text.
  apply (replace_ind [a; b] [c] (λ t r,
           has_infix (q0 :: q) t = true → has_infix (q0 :: q) r = true));
    [done|done|..].
  - intros x t Hhit IH.
    pose proof (starts_with_prefix _ _ Hhit) as Ht.
    destruct t as [|y t]; [done|]. simpl in Ht. injection Ht as <- <-.
    intros Hin. apply has_infix_later, IH. simpl drop.
    rewrite !has_infix_cons in Hin.
    apply orb_true_iff in Hin as [Hx|Hin].
    { exfalso. simpl in Hx. apply andb_true_iff in Hx as [->%N.eqb_eq _].
      apply Hq. by left. }
    apply orb_true_iff in Hin as [Hy|Hin]; [|done].
    exfalso. simpl in Hy. by apply andb_true_iff in Hy as [->%N.eqb_eq _].
  - intros x t Hmiss IH. rewrite has_infix_cons.
    intros [Hx|Hin]%orb_true_iff.
    + apply has_infix_here. rewrite <- (replace_miss [a; b] [c]) by done.
      by apply replace_keeps_start.
    + by apply has_infix_later, IH.
Qed.

(** The pattern [a b] replaced by [b]: a doubled [a] in front of [b]
    leaves the pattern behind. *)
Lemma replace_pair_leaves a b text :
  a ≠ b →
  has_infix [a; a; b] text = true →
  has_infix [a; b] (replace [a; b] [b] text) = true.
Proof.
  intros Hab. revert text.
  apply (replace_ind [a; b] [b] (λ t r,
           has_infix [a; a; b] t = true → has_infix [a; b] r = true));
    [done|done|..].
  - intros x t Hhit IH.
    pose proof (starts_with_prefix _ _ Hhit) as Ht.
    destruct t as [|y t]; [done|]. simpl in Ht. injection Ht as -> ->.
    intros Hin. apply has_infix_later, IH. simpl drop.
    rewrite !has_infix_cons in Hin.
    apply orb_true_iff in Hin as [Hx|Hin].
    { exfalso. simpl in Hx. rewrite N.eqb_refl in Hx.
      by destruct (N.eqb_spec a b). }
    apply orb_true_iff in Hin as [Hy|Hin]; [|done].
    exfalso. simpl in Hy. by destruct (N.eqb_spec a b).
  - intros x t Hmiss IH. rewrite has_infix_cons.
    intros [Hx|Hin]%orb_true_iff; [|by apply has_infix_later, IH].
    apply has_infix_here.
    pose proof (starts_with_prefix _ _ Hx) as Ht. simpl in Ht.
    injection Ht as <- Ht. rewrite Ht.
    rewrite replace_hit by (done || (simpl; by rewrite !N.eqb_refl)).
    simpl. by rewrite !N.eqb_refl.
Qed.

(** The other pattern with the same first character stays as it is. *)
Lemma replace_pair_keeps_other a b c q text :
  a ≠ b → a ≠ c → b ≠ c →
  q = [a; c] ∨ q = [a; a; c] →
  has_infix q text = true →
  has_infix q (replace [a; b] [b] text) = true.
Proof.
  intros Hab Hac Hbc Hq. revert text.
  apply (replace_ind [a; b] [b] (λ t r,
           has_infix q t = true → has_infix q r = true)); [done|done|..].
  - intros x t Hhit IH.
    pose proof (starts_with_prefix _ _ Hhit) as Ht.
    destruct t as [|y t]; [done|]. simpl in Ht. injection Ht as -> ->.
    intros Hin. apply has_infix_later, IH. simpl drop.
    rewrite !has_infix_cons in Hin.
    apply orb_true_iff in Hin as [Hx|Hin].
    { exfalso. destruct Hq as [-> | ->]; simpl in Hx;
        rewrite N.eqb_refl in Hx; simpl in Hx;
        apply andb_true_iff in Hx as [Hx%N.eqb_eq _]; congruence. }
    apply orb_true_iff in Hin as [Hy|Hin]; [|done].
    exfalso. destruct Hq as [-> | ->]; simpl in Hy;
      apply andb_true_iff in Hy as [Hy%N.eqb_eq _]; congruence.
  - intros x t Hmiss IH. rewrite has_infix_cons.
    intros [Hx|Hin]%orb_true_iff; [|by apply has_infix_later, IH].
    apply has_infix_here.
    pose proof (starts_with_prefix _ _ Hx) as Ht.
    assert (Hmiss' : ∀ u, starts_with [a; b] (c :: u) = false).
    { intros u. simpl. by destruct (N.eqb_spec a c). }
    assert (Hmiss'' : ∀ u, starts_with [a; b] (a :: c :: u) = false).
    { intros u. simpl. rewrite N.eqb_refl. by destruct (N.eqb_spec b c). }
    destruct Hq as [-> | ->]; simpl in Ht; injection Ht as <- Ht; rewrite Ht.
    + rewrite replace_miss by done. simpl. by rewrite !N.eqb_refl.
    + rewrite !replace_miss by done. simpl. by rewrite !N.eqb_refl.
Qed.

Lemma replace_length_le old c text :
  old ≠ [] → (length (replace old [c] text) ≤ length text)%nat.
Proof.
  intros Hold.
  apply (replace_ind old [c] (λ t r, (length r ≤ length t)%nat)); [done|done|..].
  - intros x t _ IH. destruct old as [|a old]; [done|].
    cbn [length drop app] in *. rewrite length_drop in IH. lia.
  - intros x t _ IH. simpl. lia.
Qed.

Lemma replace_pair_shrinks a b c text :
  has_infix [a; b] text = true →
  (length (replace [a; b] [c] text) < length text)%nat.
Proof.
  apply (replace_ind [a; b] [c] (λ t r,
           has_infix [a; b] t = true → (length r < length t)%nat));
    [done|done|..].
  - intros x t Hhit _ _.
    pose proof (replace_length_le [a; b] c (drop 2 (x :: t)) ltac:(done)) as Hle.
    apply starts_with_length in Hhit.
    cbn [length app drop] in *. rewrite length_drop in Hle. lia.
  - intros x t Hmiss IH. rewrite has_infix_cons, Hmiss. cbn [orb length].
    intros Hin%IH. lia.
Qed.

(** After a pass no pattern with the A-tilde is left. *)
Lemma fix_encoding_no_A_tilde s : 195%N ∉ fix_encoding s.
Proof.
  rewrite fix_encoding_stages.
  apply replace_all_not_elem.
  { repeat apply Forall_cons_2; try apply Forall_nil_2; cbn [fst snd];
      (split; [done|solve_not_elem]). }
  do 2 (apply replace_not_elem; [done|solve_not_elem|]).
  by apply replace_char_gone.
Qed.

(** On text without the A-tilde a pass is the two replacements for the
    A-circumflex. *)
Lemma fix_encoding_without_A_tilde r :
  195%N ∉ r →
  fix_encoding r = replace [194; 191]%N [191]%N (replace [194; 161]%N [161]%N r).
Proof.
  intros HA. rewrite fix_encoding_stages.
  rewrite (replace_all_absent (take 6 encoding_fixes)).
  2:{ repeat apply Forall_cons_2; try apply Forall_nil_2; cbn [fst];
        (eapply absent_without_elem; [|exact HA]); by left. }
  rewrite (replace_absent [195]%N)
    by (eapply absent_without_elem; [|exact HA]; by left).
  apply replace_all_absent.
  assert (195%N ∉ replace [194; 191]%N [191]%N (replace [194; 161]%N [161]%N r))
    as HA' by (do 2 (apply replace_not_elem; [done|solve_not_elem|]); done).
  repeat apply Forall_cons_2; try apply Forall_nil_2; cbn [fst];
    (eapply absent_without_elem; [|exact HA']); by left.
Qed.

Lemma fix_encoding_unsettled_shrinks r :
  195%N ∉ r →
  has_infix [194; 161]%N r = true ∨ has_infix [194; 191]%N r = true →
  (length (fix_encoding r) < length r)%nat.
Proof.
  intros HA Hin. rewrite fix_encoding_without_A_tilde by done.
  pose proof (replace_length_le [194; 161]%N 161%N r ltac:(done)) as H8.
  pose proof (replace_length_le [194; 191]%N 191%N
                (replace [194; 161]%N [161]%N r) ltac:(done)) as H9.
  destruct (has_infix [194; 161]%N r) eqn:E.
  - apply (replace_pair_shrinks _ _ 161%N) in E. lia.
  - destruct Hin as [?|Hin]; [done|].
    rewrite (replace_absent [194; 161]%N) by done.
    apply (replace_pair_shrinks _ _ 191%N) in Hin. lia.
Qed.

(** A doubled A-circumflex in front of a garbled mark survives the first
    six replacements and the fallback. *)
Lemma doubled_reaches_circumflex q s :
  q = [194; 194; 161]%N ∨ q = [194; 194; 191]%N →
  has_infix q s = true →
  has_infix q (replace [195]%N [237]%N (replace_all (take 6 encoding_fixes) s)) = true.
Proof.
  intros Hq Hin.
  assert (Hnot : 195%N ∉ q) by (destruct Hq as [-> | ->]; solve_not_elem).
  apply replace_char_keeps_infix; [done|].
  cbn [take encoding_fixes]. rewrite !replace_all_cons.
  destruct Hq as [-> | ->];
    by repeat (apply replace_pair_keeps_infix; [done|done|]).
Qed.

(** Where the condition of the amended claim fails, so does idempotence. *)
Lemma fix_encoding_doubled_changes s :
  ¬ undoubled s → fix_encoding (fix_encoding s) ≠ fix_encoding s.
Proof.
  intros Hs Heq.
  assert (has_infix [194; 161]%N (fix_encoding s) = true ∨
          has_infix [194; 191]%N (fix_encoding s) = true) as Hleft.
  { rewrite fix_encoding_stages.
    set (t7 := replace [195]%N [237]%N (replace_all (take 6 encoding_fixes) s)).
    assert (195%N ∉ replace [194; 191]%N [191]%N (replace [194; 161]%N [161]%N t7))
      as HA.
    { do 2 (apply replace_not_elem; [done|solve_not_elem|]).
      by apply replace_char_gone. }
    rewrite replace_all_absent.
    2:{ repeat apply Forall_cons_2; try apply Forall_nil_2; cbn [fst];
          (eapply absent_without_elem; [|exact HA]); by left. }
    destruct (has_infix [194; 194; 161]%N s) eqn:E1.
    - left. apply (doubled_reaches_circumflex _ s (or_introl eq_refl)) in E1.
      fold t7 in E1. apply replace_pair_leaves in E1; [|done].
      by apply (replace_pair_keeps_other 194 191 161)%N; [..|by left|].
    - destruct (has_infix [194; 194; 191]%N s) eqn:E2.
      2:{ by destruct Hs. }
      right. apply (doubled_reaches_circumflex _ s (or_intror eq_refl)) in E2.
      fold t7 in E2.
      apply (replace_pair_keeps_other 194 161 191)%N in E2; [|done..|by right].
      by apply replace_pair_leaves. }
  pose proof (fix_encoding_unsettled_shrinks _ (fix_encoding_no_A_tilde s) Hleft).
  rewrite Heq in H. lia.
Qed.

End doubled.

(** C2: the table lists the one-character pattern [195] before the six
    upper-case two-character patterns that start with it.  On every text
    the last six entries of the table therefore change nothing, and on the
    garbled form of A-acute the short pattern is the one applied. *)
Theorem fix_encoding_shadows_uppercase :
  encoding_fixes !! 6%nat = Some ([195], [237])%N ∧
  encoding_fixes !! 9%nat = Some ([195; 129], [193])%N ∧
  fix_encoding [195; 129]%N = [237; 129]%N ∧
  ∀ text, fix_encoding text = replace_all (take 9 encoding_fixes) text.
Proof.
  split; [done|]. split; [done|]. split; [by vm_compute|].
  intros text.
  change (fix_encoding text)
    with (replace_all (drop 9 encoding_fixes)
            (replace_all (take 9 encoding_fixes) text)).
  apply replace_all_absent.
  assert (195%N ∉ replace_all (take 9 encoding_fixes) text) as HA.
  { change (replace_all (take 9 encoding_fixes) text)
      with (replace [194; 191]%N [191]%N
              (replace [194; 161]%N [161]%N
                 (replace [195]%N [237]%N
                    (replace_all (take 6 encoding_fixes) text)))).
    do 2 (apply replace_not_elem; [done|solve_not_elem|]).
    by apply replace_char_gone. }
  repeat apply Forall_cons_2; try apply Forall_nil_2; cbn [fst];
    (eapply absent_without_elem; [|exact HA]); by left.
Qed.

(** ** strip *)

Section strip_facts.

Context (drop_it : char → bool).

Lemma lstrip_by_all s :
  Forall (λ c, drop_it c = true) s → lstrip_by drop_it s = [].
Proof. induction 1 as [|c s Hc _ IH]; simpl; [done|by rewrite Hc]. Qed.

Lemma lstrip_by_split s :
  ∃ dropped, s = dropped ++ lstrip_by drop_it s ∧
             Forall (λ c, drop_it c = true) dropped.
Proof.
  induction s as [|c s (dropped & Hs & Hd)]; [by exists []|].
  simpl. destruct (drop_it c) eqn:E; [|by exists []].
  exists (c :: dropped). split; [by rewrite Hs at 1|by constructor].
Qed.

Lemma lstrip_by_nil s :
  lstrip_by drop_it s = [] → Forall (λ c, drop_it c = true) s.
Proof.
  intros H. destruct (lstrip_by_split s) as (dropped & Hs & Hd).
  rewrite H, app_nil_r in Hs. by subst.
Qed.

Lemma rstrip_by_nil s :
  rstrip_by drop_it s = [] → Forall (λ c, drop_it c = true) s.
Proof.
  unfold rstrip_by. intros H.
  apply (f_equal reverse) in H. rewrite reverse_involutive in H.
  change (reverse []) with (@nil N) in H.
  apply lstrip_by_nil in H. by apply Forall_reverse.
Qed.

End strip_facts.

Lemma strip_nil s : strip s = [] ↔ Forall (λ c, is_space c = true) s.
Proof.
  unfold strip. split.
  - intros H%rstrip_by_nil.
    destruct (lstrip_by_split is_space s) as (dropped & Hs & Hd).
    rewrite Hs. by apply Forall_app.
  - intros H. by rewrite lstrip_by_all.
Qed.

Lemma strip_not_nil s c : c ∈ s → is_space c = false → strip s ≠ [].
Proof.
  intros Hc Hns H%strip_nil. rewrite Forall_forall in H.
  specialize (H _ Hc). congruence.
Qed.

(** ** The split at bracketed names *)

Section split_facts.

Lemma span_until_stop stop name rest :
  stop ∉ name →
  span_until stop (name ++ stop :: rest) = (name, stop :: rest).
Proof.
  induction name as [|c name IH]; intros Hname; simpl.
  - by rewrite N.eqb_refl.
  - apply not_elem_of_cons in Hname as [Hc Hname].
    destruct (N.eqb_spec c stop); [congruence|]. by rewrite IH.
Qed.

Lemma span_until_length stop s :
  (length (span_until stop s).2 ≤ length s)%nat.
Proof.
  induction s as [|c s IH]; simpl; [done|].
  destruct (c =? stop)%N; simpl; [done|].
  destruct (span_until stop s); simpl in *. lia.
Qed.

Lemma match_label_marker name rest :
  name ≠ [] → RBRACKET ∉ name →
  match_label (LBRACKET :: name ++ RBRACKET :: rest) =
  Some (LBRACKET :: name ++ [RBRACKET], rest).
Proof.
  intros Hne Hname. unfold match_label. rewrite N.eqb_refl.
  rewrite span_until_stop by done. by destruct name.
Qed.


Lemma match_label_shorter text label after :
  match_label text = Some (label, after) → (length after < length text)%nat.
Proof.
  destruct text as [|c t]; simpl; [done|].
  destruct (c =? LBRACKET)%N; [|done].
  pose proof (span_until_length RBRACKET t) as Hlen.
  destruct (span_until RBRACKET t) as [[|n name] [|r rest]]; simpl in *; try done.
  intros [= _ <-]. lia.
Qed.

Lemma split_loop_fuel f1 : ∀ f2 chunk text,
  (length text ≤ f1)%nat → (length text ≤ f2)%nat →
  split_loop f1 chunk text = split_loop f2 chunk text.
Proof.
  induction f1 as [|f1 IH]; intros [|f2] chunk [|c text] H1 H2;
    simpl length in *; try done; try lia.
  - simpl. by rewrite app_nil_r.
  - simpl. by rewrite app_nil_r.
  - cbn [split_loop].
    destruct (match_label (c :: text)) as [[label after]|] eqn:E.
    + apply match_label_shorter in E. simpl in E.
      do 2 f_equal. apply IH; lia.
    + apply IH; lia.
Qed.

Lemma split_loop_plain fuel chunk pre text :
  LBRACKET ∉ pre →
  split_loop (length pre + fuel) chunk (pre ++ text) =
  split_loop fuel (chunk ++ pre) text.
Proof.
  revert chunk. induction pre as [|c pre IH]; intros chunk Hpre; simpl.
  - by rewrite app_nil_r.
  - apply not_elem_of_cons in Hpre as [Hc Hpre].
    destruct (N.eqb_spec c LBRACKET); [congruence|].
    rewrite IH by done. by rewrite <- (assoc_L (++)).
Qed.

(** Text without an opening bracket is one part. *)
Lemma re_split_plain text : LBRACKET ∉ text → re_split text = [text].
Proof.
  intros Ht. unfold re_split.
  pose proof (split_loop_plain 0 [] text [] Ht) as H.
  rewrite Nat.add_0_r, app_nil_r in H. rewrite H. simpl. by rewrite app_nil_r.
Qed.

(** Text up to the first bracketed name is split into the text before the
    name, the name with its brackets, and the split of what follows. *)
Lemma re_split_marker pre name rest :
  LBRACKET ∉ pre → name ≠ [] → RBRACKET ∉ name →
  re_split (pre ++ LBRACKET :: name ++ RBRACKET :: rest) =
  pre :: (LBRACKET :: name ++ [RBRACKET]) :: re_split rest.
Proof.
  intros Hpre Hne Hname. unfold re_split. rewrite length_app.
  rewrite split_loop_plain by done. cbn [length split_loop app].
  rewrite match_label_marker by done. do 2 f_equal.
  apply split_loop_fuel; [|done]. rewrite length_app. simpl. lia.
Qed.

End split_facts.

(** ** The parsing loop *)

Section parse_facts.

(** Dialogue collected before any character name never reaches the
    result. *)
Lemma parse_unnamed_dialogue parts : ∀ res d d',
  parse_finish (foldl parse_step (ParseState res None d) parts) =
  parse_finish (foldl parse_step (ParseState res None d') parts).
Proof.
  induction parts as [|part parts IH]; intros res d d'; [done|].
  cbn [foldl]. unfold parse_step at 2 4. cbn [current_character result current_dialogue].
  destruct (is_character part); [done|]. apply IH.
Qed.

Lemma is_character_other c part : c ≠ LBRACKET → is_character (c :: part) = false.
Proof. intros Hc. simpl. by destruct (N.eqb_spec c LBRACKET). Qed.

Lemma is_character_plain part : LBRACKET ∉ part → is_character part = false.
Proof.
  destruct part as [|c part]; [done|].
  intros [Hc _]%not_elem_of_cons. by apply is_character_other.
Qed.

Lemma parse_parts_plain_head pre parts :
  LBRACKET ∉ pre → parse_parts (pre :: parts) = parse_parts parts.
Proof.
  intros Hpre. unfold parse_parts. cbn [foldl]. unfold parse_step at 2.
  rewrite is_character_plain by done. apply parse_unnamed_dialogue.
Qed.

Lemma parse_parts_drop_blank_head pre parts :
  LBRACKET ∉ pre →
  parse_parts (drop_blank_head (pre :: parts)) = parse_parts parts.
Proof.
  intros Hpre. simpl. case_bool_decide; [done|].
  by apply parse_parts_plain_head.
Qed.

Lemma is_character_blank part : strip part = [] → is_character part = false.
Proof.
  intros Hblank%strip_nil. destruct part as [|c part]; [done|].
  apply Forall_cons in Hblank as [Hc _]. apply is_character_other.
  intros ->. done.
Qed.



End parse_facts.

(** The parse of a text whose first opening bracket starts a bracketed
    name. *)
Lemma parse_from_marker pre name rest :
  LBRACKET ∉ pre → name ≠ [] → RBRACKET ∉ name →
  parse_character_dialogue (pre ++ LBRACKET :: name ++ RBRACKET :: rest) =
  parse_parts ((LBRACKET :: fix_encoding name ++ [RBRACKET]) ::
               re_split (fix_encoding rest)).
Proof.
  intros Hpre Hne Hname. unfold parse_character_dialogue.
  rewrite bool_decide_eq_false_2.
  2:{ apply (strip_not_nil _ LBRACKET); [|done].
      apply elem_of_app. right. by left. }
  rewrite (fix_encoding_app_bracket LBRACKET) by by left.
  rewrite (fix_encoding_app_bracket RBRACKET) by by right.
  rewrite re_split_marker.
  - apply parse_parts_drop_blank_head.
    apply fix_encoding_no_bracket; [by left|done].
  - apply fix_encoding_no_bracket; [by left|done].
  - by apply fix_encoding_nonempty.
  - apply fix_encoding_no_bracket; [by right|done].
Qed.

(** C1, as stated, fails: the labels the parser returns are not stripped
    of their brackets. *)
Lemma parse_example_not_stripped :
  parse_character_dialogue (lit "[Charlie] Hello there[Vaggie] Hi") ≠
  [(lit "Charlie", lit "Hello there"); (lit "Vaggie", lit "Hi")].
Proof. by vm_compute. Qed.

(** C1, amended: the parser yields exactly the two pairs, in order, with
    the dialogue text trimmed and each label still in its square brackets;
    [strip('[]')], which [generate_latex] applies to a label, gives the
    bare names. *)
Theorem parse_example :
  parse_character_dialogue (lit "[Charlie] Hello there[Vaggie] Hi") =
  [(lit "[Charlie]", lit "Hello there"); (lit "[Vaggie]", lit "Hi")] ∧
  (λ entry, (strip_chars (lit "[]") entry.1, entry.2)) <$>
    parse_character_dialogue (lit "[Charlie] Hello there[Vaggie] Hi") =
  [(lit "Charlie", lit "Hello there"); (lit "Vaggie", lit "Hi")].
Proof. by vm_compute. Qed.

(** ** The loop seen from its middle *)

Section more_parse.

Lemma lstrip_by_app_keep drop_it l c m :
  drop_it c = false →
  lstrip_by drop_it (l ++ c :: m) = lstrip_by drop_it l ++ c :: m.
Proof.
  intros Hc. induction l as [|x l IH]; simpl; [by rewrite Hc|].
  by destruct (drop_it x).
Qed.

Lemma rstrip_by_cons_keep drop_it c s :
  drop_it c = false → rstrip_by drop_it (c :: s) = c :: rstrip_by drop_it s.
Proof.
  intros Hc. unfold rstrip_by.
  rewrite reverse_cons, lstrip_by_app_keep by done. by rewrite reverse_snoc.
Qed.

Lemma lstrip_by_idemp drop_it s :
  lstrip_by drop_it (lstrip_by drop_it s) = lstrip_by drop_it s.
Proof.
  induction s as [|c s IH]; [done|]. simpl.
  destruct (drop_it c) eqn:E; [done|]. simpl. by rewrite E.
Qed.

Lemma rstrip_by_idemp drop_it s :
  rstrip_by drop_it (rstrip_by drop_it s) = rstrip_by drop_it s.
Proof. unfold rstrip_by. by rewrite reverse_involutive, lstrip_by_idemp. Qed.

Lemma strip_idemp s : strip (strip s) = strip s.
Proof.
  unfold strip. destruct (lstrip_by is_space s) as [|c t] eqn:E; [done|].
  assert (is_space c = false) as Hc.
  { clear -E. induction s as [|x s IH]; [done|]. simpl in E.
    destruct (is_space x) eqn:Ex; [by apply IH|]. by injection E as -> _. }
  rewrite rstrip_by_cons_keep by done. simpl. rewrite Hc.
  rewrite rstrip_by_cons_keep by done. by rewrite rstrip_by_idemp.
Qed.

(** The result of the loop, seen from a state in its middle. *)
Lemma parse_loop_result parts : ∀ res cc d,
  parse_finish (foldl parse_step (ParseState res cc d) parts) =
  res ++ parse_finish (foldl parse_step (ParseState [] cc d) parts).
Proof.
  induction parts as [|part parts IH]; intros res cc d.
  - unfold parse_finish. simpl. destruct cc; [done|by rewrite app_nil_r].
  - cbn [foldl]. unfold parse_step at 2 4. cbn [result current_character current_dialogue].
    destruct (is_character part); [|apply IH].
    destruct cc as [ch|]; [|apply IH].
    rewrite IH. symmetry. rewrite IH. cbn [app]. by rewrite <- (assoc_L (++)).
Qed.

Lemma span_until_absent stop s : stop ∉ s → span_until stop s = (s, []).
Proof.
  induction s as [|c s IH]; [done|]. intros [Hc Hs]%not_elem_of_cons. simpl.
  destruct (N.eqb_spec c stop); [done|]. by rewrite IH.
Qed.

(** A bracketed name on one line is a character name. *)
Lemma is_character_name name :
  name ≠ [] → LF ∉ name → is_character (LBRACKET :: name ++ [RBRACKET]) = true.
Proof.
  intros Hne Hlf. unfold is_character. rewrite N.eqb_refl.
  rewrite span_until_absent.
  2:{ rewrite elem_of_app. intros [?|Hin]; [done|].
      by apply list_elem_of_singleton in Hin. }
  destruct name as [|c name]; [done|]. simpl.
  apply bool_decide_eq_true_2, elem_of_app. right. by left.
Qed.

(** A bracketed name broken over lines is not. *)
Lemma is_character_broken_name name :
  LF ∈ name → RBRACKET ∉ name →
  is_character (LBRACKET :: name ++ [RBRACKET]) = false.
Proof.
  intros Hlf Hname. unfold is_character. rewrite N.eqb_refl.
  apply list_elem_of_split_l in Hlf as (n1 & n2 & -> & Hn1).
  rewrite <- (assoc_L (++)). cbn [app]. rewrite span_until_stop by done.
  cbn [fst andb]. destruct n1 as [|c n1]; [done|].
  apply bool_decide_eq_false_2. intros Hin. apply Hname.
  right. apply elem_of_app. by left.
Qed.

Lemma fix_encoding_keeps_line_feed text : LF ∈ text → LF ∈ fix_encoding text.
Proof.
  intros (n1 & n2 & ->)%list_elem_of_split.
  rewrite (replace_all_app_sep encoding_fixes).
  - apply elem_of_app. right. by left.
  - repeat apply Forall_cons_2; try apply Forall_nil_2; cbn [fst];
      (split; [done|solve_not_elem]).
Qed.

Lemma fix_encoding_no_line_feed text : LF ∉ text → LF ∉ fix_encoding text.
Proof.
  apply replace_all_not_elem.
  repeat apply Forall_cons_2; try apply Forall_nil_2; cbn [fst snd];
    (split; [done|solve_not_elem]).
Qed.

(** The labels of the result, from any state of the loop. *)
Lemma parse_loop_labels parts : ∀ res cc d,
  (parse_finish (foldl parse_step (ParseState res cc d) parts)).*1 =
  res.*1 ++ option_list cc ++ filter (λ part, is_character part) parts.
Proof.
  induction parts as [|part parts IH]; intros res cc d.
  - unfold parse_finish. simpl. destruct cc; simpl.
    + by rewrite fmap_app.
    + by rewrite app_nil_r.
  - cbn [foldl]. unfold parse_step at 2. cbn [result current_character current_dialogue].
    destruct (is_character part) eqn:E.
    + rewrite IH, filter_cons_True by by rewrite E.
      destruct cc; simpl; [|done].
      by rewrite fmap_app, <- (assoc_L (++)).
    + rewrite IH, filter_cons_False; [done|]. rewrite E. by intros [].
Qed.

Lemma parse_loop_stripped parts : ∀ res cc d,
  Forall (λ entry, strip entry.2 = entry.2) res →
  Forall (λ entry, strip entry.2 = entry.2)
         (parse_finish (foldl parse_step (ParseState res cc d) parts)).
Proof.
  induction parts as [|part parts IH]; intros res cc d Hres.
  - unfold parse_finish. simpl. destruct cc; [|done].
    apply Forall_app. split; [done|]. repeat constructor. apply strip_idemp.
  - cbn [foldl]. unfold parse_step at 2. cbn [result current_character current_dialogue].
    destruct (is_character part); [|by apply IH].
    apply IH. destruct cc; [|done].
    apply Forall_app. split; [done|]. repeat constructor. apply strip_idemp.
Qed.

End more_parse.

Section parse_entries.

Lemma blank_no_bracket text : strip text = [] → LBRACKET ∉ text.
Proof.
  intros Hblank%strip_nil Hin. rewrite Forall_forall in Hblank.
  by specialize (Hblank _ Hin).
Qed.

Lemma filter_character_drop_blank_head parts :
  filter (λ part, is_character part) (drop_blank_head parts) =
  filter (λ part, is_character part) parts.
Proof.
  destruct parts as [|part parts]; [done|]. simpl.
  case_bool_decide as Hblank; [|done].
  rewrite filter_cons_False; [done|].
  rewrite is_character_blank by done. by intros [].
Qed.

(** The parts of a text that starts with a bracketed name. *)
Lemma parse_parts_named label text parts :
  is_character label = true → is_character text = false →
  parse_parts (label :: text :: parts) =
  parse_finish (foldl parse_step (ParseState [] (Some label) text) parts).
Proof.
  intros Hlabel Htext. unfold parse_parts. cbn [foldl].
  unfold parse_step at 2 3. cbn [result current_character current_dialogue].
  by rewrite Hlabel, Htext.
Qed.

Lemma parse_parts_name_head label parts :
  is_character label = true →
  parse_parts (label :: parts) =
  parse_finish (foldl parse_step (ParseState [] (Some label) []) parts).
Proof.
  intros Hlabel. unfold parse_parts. cbn [foldl].
  unfold parse_step at 2. by rewrite Hlabel.
Qed.

Lemma parse_from_name name rest :
  name ≠ [] → RBRACKET ∉ name →
  parse_character_dialogue (LBRACKET :: name ++ RBRACKET :: rest) =
  parse_parts ((LBRACKET :: fix_encoding name ++ [RBRACKET]) ::
               re_split (fix_encoding rest)).
Proof.
  intros Hne Hname.
  exact (parse_from_marker [] name rest (not_elem_of_nil _) Hne Hname).
Qed.

End parse_entries.

(** ** The text in front of the first bracketed name *)

Section first_marker.






End first_marker.

Section fix_encoding_brackets.

Lemma fix_encoding_nil : fix_encoding [] = [].
Proof. done. Qed.


Lemma fix_encoding_cons_line_feed text :
  fix_encoding (LF :: text) = LF :: fix_encoding text.
Proof.
  apply (replace_all_app_sep encoding_fixes [] LF text).
  repeat apply Forall_cons_2; try apply Forall_nil_2; cbn [fst];
    (split; [done|solve_not_elem]).
Qed.







End fix_encoding_brackets.

Section leading_text.




End leading_text.




(** ** Python list operations at valid positions *)

Section pylist_facts.

Context {A : Type}.
Implicit Types (l : list A) (i : Z) (x : A).

Lemma norm_index_valid n i :
  0 ≤ i < Z.of_nat n → PyList.norm_index n i = Some (Z.to_nat i).
Proof. intros Hi. unfold PyList.norm_index. by rewrite decide_True. Qed.

Lemma index_valid l i x :
  0 ≤ i → l !! Z.to_nat i = Some x → PyList.index l i = Some x.
Proof.
  intros Hi Hx. unfold PyList.index.
  rewrite norm_index_valid; [done|].
  apply lookup_lt_Some in Hx. lia.
Qed.

Lemma index_in_range l i :
  0 ≤ i < PyList.len l →
  ∃ x, l !! Z.to_nat i = Some x ∧ PyList.index l i = Some x.
Proof.
  unfold PyList.len. intros Hi.
  destruct (lookup_lt_is_Some_2 l (Z.to_nat i)) as [x Hx]; [lia|].
  exists x. split; [done|]. apply index_valid; [lia|done].
Qed.

Lemma setitem_valid l i x :
  0 ≤ i < PyList.len l →
  PyList.setitem l i x = Some (<[Z.to_nat i := x]> l).
Proof. intros Hi. unfold PyList.setitem. by rewrite norm_index_valid. Qed.

Lemma pop_valid l i :
  0 ≤ i < PyList.len l → PyList.pop l i = Some (delete (Z.to_nat i) l).
Proof. intros Hi. unfold PyList.pop. by rewrite norm_index_valid. Qed.

Lemma slice_bound_valid n i :
  0 ≤ i → PyList.slice_bound n i = Nat.min (Z.to_nat i) n.
Proof. intros Hi. unfold PyList.slice_bound. rewrite decide_False; lia. Qed.

Lemma upto_valid l i : 0 ≤ i → PyList.upto l i = take (Z.to_nat i) l.
Proof.
  intros Hi. unfold PyList.upto. rewrite slice_bound_valid by done.
  destruct (decide (Z.to_nat i ≤ length l)%nat).
  - by rewrite Nat.min_l.
  - rewrite Nat.min_r by lia. by rewrite !take_ge by lia.
Qed.

Lemma from_valid l i : 0 ≤ i → PyList.from l i = drop (Z.to_nat i) l.
Proof.
  intros Hi. unfold PyList.from. rewrite slice_bound_valid by done.
  destruct (decide (Z.to_nat i ≤ length l)%nat).
  - by rewrite Nat.min_l.
  - rewrite Nat.min_r by lia. by rewrite !drop_ge by lia.
Qed.

Lemma insert_valid l i x :
  0 ≤ i → PyList.insert l i x = take (Z.to_nat i) l ++ x :: drop (Z.to_nat i) l.
Proof.
  intros Hi. pose proof (upto_valid l i Hi) as Hu.
  pose proof (from_valid l i Hi) as Hf.
  unfold PyList.insert, PyList.upto, PyList.from in *. by rewrite Hu, Hf.
Qed.

End pylist_facts.

(** ** The buffer operations keep the invariants *)

Section buffer_facts.

Lemma buffer_inv_intro ls cl cc sp h current :
  0 ≤ cl → ls !! Z.to_nat cl = Some current →
  0 ≤ cc ≤ PyList.len current →
  buffer_inv (Textbox ls cl cc sp h).
Proof.
  intros Hcl Hcur Hcc. pose proof (lookup_lt_Some _ _ _ Hcur) as Hlt.
  constructor; unfold PyList.len; simpl; [lia|lia|by exists current].
Qed.

Local Ltac start tb :=
  intros tb; destruct tb as [ls cl cc sp h];
  intros [[Hlen Hline (current & Hcur & Hcol)] Hsp Hh];
  unfold PyList.len in *; cbn [lines current_line current_col scroll_pos height] in *.

Local Ltac finish current :=
  eexists; split; [reflexivity|];
  unfold with_cursor, with_lines, with_scroll;
  constructor; cbn [lines current_line current_col scroll_pos height];
  [eapply (buffer_inv_intro _ _ _ _ _ current); unfold PyList.len;
   [lia|try done|try lia] | lia..].

Local Ltac fetch ls i x Hx :=
  let H := fresh in
  destruct (index_in_range ls i) as (x & Hx & H);
  [unfold PyList.len; lia|]; rewrite H; cbn [mbind option_bind]; clear H.

Lemma _adjust_scroll_ok tb : textbox_ok tb → textbox_ok (_adjust_scroll tb).
Proof.
  revert tb. start tb. unfold _adjust_scroll. simpl.
  repeat case_decide; unfold with_scroll; (constructor; simpl; [|lia..]);
    (eapply buffer_inv_intro; [lia|done|unfold PyList.len; lia]).
Qed.

Lemma _update_display_ok : keeps_ok _update_display.
Proof.
  intros tb Htb. apply _adjust_scroll_ok in Htb. unfold _update_display.
  pose proof Htb as [[Hlen Hline (current & Hcur & Hcol)] Hsp Hh].
  cbn zeta. rewrite (index_valid _ _ current) by (done || lia).
  by eexists.
Qed.

Lemma _move_up_ok : keeps_ok _move_up.
Proof.
  start tb. unfold _move_up. simpl. case_decide.
  - fetch ls (cl - 1) target Ht. finish target.
  - finish current.
Qed.

Lemma _move_down_ok : keeps_ok _move_down.
Proof.
  start tb. unfold _move_down, PyList.len. simpl. case_decide.
  - fetch ls (cl + 1) target Ht. finish target.
  - finish current.
Qed.

Lemma _move_left_ok : keeps_ok _move_left.
Proof.
  start tb. unfold _move_left. simpl. repeat case_decide.
  - finish current.
  - fetch ls (cl - 1) target Ht. finish target.
  - finish current.
Qed.

Lemma _move_right_ok : keeps_ok _move_right.
Proof.
  start tb. unfold _move_right, PyList.len. simpl.
  rewrite (index_valid _ _ current) by (done || lia). simpl.
  repeat case_decide.
  - finish current.
  - destruct (lookup_lt_is_Some_2 ls (Z.to_nat (cl + 1))) as [target Ht]; [lia|].
    finish target.
  - finish current.
Qed.

Lemma key_home_ok : keeps_ok key_home.
Proof. start tb. unfold key_home. simpl. finish current. Qed.

Lemma key_end_ok : keeps_ok key_end.
Proof.
  start tb. unfold key_end. simpl.
  rewrite (index_valid _ _ current) by (done || lia). simpl.
  finish current.
Qed.

Lemma _page_up_ok : keeps_ok _page_up.
Proof.
  start tb. unfold _page_up. simpl.
  fetch ls (Z.max 0 (cl - h)) target Ht. finish target.
Qed.

Lemma _page_down_ok : keeps_ok _page_down.
Proof.
  start tb. unfold _page_down, PyList.len. simpl.
  fetch ls (Z.min (Z.of_nat (length ls) - 1) (cl + h)) target Ht.
  finish target.
Qed.

Local Ltac lengths :=
  rewrite ?length_app, ?length_take, ?length_drop; cbn [length]; lia.

Lemma _insert_char_ok c : keeps_ok (_insert_char c).
Proof.
  start tb. unfold _insert_char. simpl.
  rewrite (index_valid ls cl current) by (done || lia). simpl.
  rewrite setitem_valid by (unfold PyList.len; lia). simpl.
  rewrite upto_valid, from_valid by lia.
  finish (take (Z.to_nat cc) current ++ c :: drop (Z.to_nat cc) current).
  - apply list_lookup_insert_eq. lia.
  - lengths.
Qed.

Lemma _insert_newline_ok : keeps_ok _insert_newline.
Proof.
  start tb. unfold _insert_newline. simpl.
  rewrite (index_valid ls cl current) by (done || lia). simpl.
  rewrite setitem_valid by (unfold PyList.len; lia). simpl.
  rewrite upto_valid, from_valid, insert_valid by lia.
  finish (drop (Z.to_nat cc) current).
  rewrite lookup_app_r; rewrite length_take, length_insert; [|lia].
  by replace (Z.to_nat (cl + 1) - _)%nat with 0%nat by lia.
Qed.

Lemma _backspace_ok : keeps_ok _backspace.
Proof.
  start tb. unfold _backspace. simpl. repeat case_decide.
  - rewrite (index_valid ls cl current) by (done || lia). simpl.
    rewrite setitem_valid by (unfold PyList.len; lia). simpl.
    rewrite upto_valid, from_valid by lia.
    finish (take (Z.to_nat (cc - 1)) current ++ drop (Z.to_nat cc) current).
    + apply list_lookup_insert_eq. lia.
    + lengths.
  - destruct (index_in_range ls (cl - 1)) as (previous & Hprev & ->);
      [unfold PyList.len; lia|]. simpl.
    rewrite (index_valid ls cl current) by (done || lia). simpl.
    rewrite setitem_valid by (unfold PyList.len; lia). simpl.
    rewrite pop_valid by (unfold PyList.len; rewrite length_insert; lia). simpl.
    finish (previous ++ current).
    + rewrite list_lookup_delete_lt by lia. apply list_lookup_insert_eq. lia.
    + lengths.
  - finish current.
Qed.

Lemma _delete_ok : keeps_ok _delete.
Proof.
  start tb. unfold _delete, PyList.len. simpl.
  rewrite (index_valid ls cl current) by (done || lia). simpl.
  repeat case_decide.
  - rewrite setitem_valid by (unfold PyList.len; lia). simpl.
    rewrite upto_valid, from_valid by lia.
    finish (take (Z.to_nat cc) current ++ drop (Z.to_nat (cc + 1)) current).
    + apply list_lookup_insert_eq. lia.
    + lengths.
  - destruct (index_in_range ls (cl + 1)) as (next & Hnext & ->);
      [unfold PyList.len; lia|]. simpl.
    rewrite setitem_valid by (unfold PyList.len; lia). simpl.
    rewrite pop_valid by (unfold PyList.len; rewrite length_insert; lia). simpl.
    finish (current ++ next).
    + rewrite list_lookup_delete_lt by lia. apply list_lookup_insert_eq. lia.
    + lengths.
  - finish current.
Qed.

Lemma keeps_ok_preserves op tb tb' :
  keeps_ok op → textbox_ok tb → op tb = Some tb' → textbox_ok tb'.
Proof. intros Hop Htb Heq. destruct (Hop tb Htb) as (? & ? & ?). congruence. Qed.

Lemma cursor_move_ok k : keeps_ok (cursor_move k).
Proof.
  destruct k; simpl;
    auto using _move_up_ok, _move_down_ok, _move_left_ok, _move_right_ok,
               key_home_ok, key_end_ok, _page_up_ok, _page_down_ok.
Qed.

Lemma dispatch_cursor k tb : dispatch (key_code k) tb = cursor_move k tb.
Proof. by destruct k. Qed.

Lemma dispatch_preserves ch tb tb' :
  textbox_ok tb → dispatch ch tb = Some tb' → textbox_ok tb'.
Proof.
  intros Htb. unfold dispatch.
  repeat case_decide;
    try (by intros [= <-]);
    try (by apply keeps_ok_preserves;
         eauto using _move_up_ok, _move_down_ok, _move_left_ok, _move_right_ok,
                    key_home_ok, key_end_ok, _page_up_ok, _page_down_ok,
                    _insert_newline_ok, _backspace_ok, _delete_ok).
  destruct (chr ch) as [c|]; [|done]. simpl.
  apply keeps_ok_preserves; [apply _insert_char_ok|done].
Qed.

(** A key in the range of code points is dispatched without an exception. *)
Lemma dispatch_ok ch : ch ≤ 1114111 → keeps_ok (dispatch ch).
Proof.
  intros Hch tb Htb. unfold dispatch.
  repeat case_decide;
    try (by eexists);
    try (by first
      [ apply _move_up_ok | apply _move_down_ok | apply _move_left_ok
      | apply _move_right_ok | apply key_home_ok | apply key_end_ok
      | apply _page_up_ok | apply _page_down_ok | apply _insert_newline_ok
      | apply _backspace_ok | apply _delete_ok ]).
  unfold chr. rewrite decide_True by lia. simpl. by apply _insert_char_ok.
Qed.

Lemma iteration_preserves ch tb tb' :
  textbox_ok tb → iteration ch tb = Some tb' → textbox_ok tb'.
Proof.
  intros Htb. unfold iteration.
  destruct (_update_display_ok tb Htb) as (tb1 & -> & Htb1). simpl.
  by apply dispatch_preserves.
Qed.

Lemma split_on_nonempty sep text : split_on sep text ≠ [].
Proof.
  destruct text as [|c text]; simpl; [done|].
  destruct (c =? sep)%N; [done|]. by destruct (split_on sep text).
Qed.

Lemma set_text_preserves text tb tb' :
  textbox_ok tb → set_text text tb = Some tb' → textbox_ok tb'.
Proof.
  intros [_ _ Hh]. unfold set_text. apply keeps_ok_preserves.
  - apply _update_display_ok.
  - pose proof (split_on_nonempty LF text) as Hne.
    destruct (split_on LF text) as [|first ls]; [done|].
    constructor; simpl; [|done..].
    apply (buffer_inv_intro _ _ _ _ _ first); [done|done|unfold PyList.len; lia].
Qed.

Lemma new_textbox_ok h : 0 ≤ h → textbox_ok (new_textbox h).
Proof.
  intros Hh. constructor; simpl; [|done..].
  by apply (buffer_inv_intro _ _ _ _ _ []).
Qed.

(** Every state a text box reaches is within the invariants. *)
Lemma reachable_ok tb : reachable tb → textbox_ok tb.
Proof.
  induction 1 as [h Hh|tb tb' _ IH Hshow|ch tb tb' _ IH Hstep|text tb tb' _ IH Hset].
  - by apply new_textbox_ok.
  - by eapply keeps_ok_preserves; [apply _update_display_ok|..].
  - by eapply iteration_preserves.
  - by eapply set_text_preserves.
Qed.

End buffer_facts.

(** ** Python list operations seen from the position they act on *)

Section pylist_middle.

Context {A : Type}.
Implicit Types (l : list A) (x y : A).

Lemma index_middle l1 x l2 i :
  i = Z.of_nat (length l1) → PyList.index (l1 ++ x :: l2) i = Some x.
Proof.
  intros ->. apply index_valid; [lia|].
  rewrite Nat2Z.id. apply list_lookup_middle. done.
Qed.

Lemma setitem_middle l1 x l2 i y :
  i = Z.of_nat (length l1) →
  PyList.setitem (l1 ++ x :: l2) i y = Some (l1 ++ y :: l2).
Proof.
  intros ->. rewrite setitem_valid.
  - rewrite Nat2Z.id. f_equal.
    replace (length l1) with (length l1 + 0)%nat at 1 by lia.
    by rewrite insert_app_r.
  - unfold PyList.len. rewrite length_app. simpl. lia.
Qed.

Lemma pop_middle l1 x l2 i :
  i = Z.of_nat (length l1) → PyList.pop (l1 ++ x :: l2) i = Some (l1 ++ l2).
Proof.
  intros ->. rewrite pop_valid.
  - by rewrite Nat2Z.id, delete_middle.
  - unfold PyList.len. rewrite length_app. simpl. lia.
Qed.

Lemma insert_middle l1 l2 i y :
  i = Z.of_nat (length l1) → PyList.insert (l1 ++ l2) i y = l1 ++ y :: l2.
Proof.
  intros ->. rewrite insert_valid by lia.
  by rewrite Nat2Z.id, take_app_length, drop_app_length.
Qed.

End pylist_middle.

(** A state within the buffer invariants, split at the cursor line. *)
Lemma buffer_inv_split tb :
  buffer_inv tb →
  ∃ above current below,
    lines tb = above ++ current :: below ∧
    current_line tb = Z.of_nat (length above) ∧
    0 ≤ current_col tb ≤ PyList.len current.
Proof.
  intros [_ Hline (current & Hcur & Hcol)].
  apply list_elem_of_split_length in Hcur as (above & below & Hls & Hk).
  exists above, current, below. split; [done|]. split; [lia|done].
Qed.

(** C4: from every reachable state, every sequence of cursor keys runs
    without an exception, and after each key the buffer has at least one
    line, the cursor line is an index of the line list, and the cursor
    column lies between 0 and the length of the cursor line. *)
Theorem cursor_moves_keep_invariant (tb : textbox) (keys : list cursor_key) :
  reachable tb →
  ∃ trace, run_keys (key_code <$> keys) tb = Some trace ∧
           length trace = length keys ∧
           Forall buffer_inv trace.
Proof.
  intros Htb%reachable_ok. revert tb Htb.
  induction keys as [|k keys IH]; intros tb Htb; [by exists []|].
  cbn [fmap list_fmap run_keys]. unfold iteration.
  destruct (_update_display_ok tb Htb) as (tb1 & -> & Htb1). cbn [mbind option_bind].
  rewrite dispatch_cursor.
  destruct (cursor_move_ok k tb1 Htb1) as (tb2 & -> & Htb2). cbn [mbind option_bind].
  destruct (IH tb2 Htb2) as (trace & -> & Hlen & Hall). cbn [mbind option_bind].
  exists (tb2 :: trace). split; [done|]. split; [simpl; by rewrite Hlen|].
  constructor; [apply Htb2|done].
Qed.

Lemma cursor_moves_keep_invariant_witness :
  let text := lit "Hola" ++ LF :: lit "Si" ++ LF :: lit "Adios" in
  ∃ trace,
    run_keys (key_code <$> [Down; End_; Down; Right; Up; PageDown; Left; Home; PageUp])
             (Textbox (split_on LF text) 0 0 0 2) = Some trace ∧
    length trace = 9%nat ∧ Forall buffer_inv trace ∧
    (λ tb, (current_line tb, current_col tb)) <$> trace =
      [(1, 0); (1, 2); (2, 2); (2, 3); (1, 2); (2, 2); (2, 1); (2, 0); (0, 0)].
Proof.
  intros text.
  destruct (cursor_moves_keep_invariant
              (Textbox (split_on LF text) 0 0 0 2)
              [Down; End_; Down; Right; Up; PageDown; Left; Home; PageUp])
    as (trace & Hrun & Hlen & Hinv).
  { apply (reach_set_text text (new_textbox 2)); [apply reach_new; lia|done]. }
  exists trace. split; [done|]. split; [done|]. split; [done|].
  vm_compute in Hrun. injection Hrun as <-. by vm_compute.
Defined.

(** C5: with a viewport of at least one line, after a cursor movement and
    the scroll adjustment that follows it the cursor line is one of the
    visible lines and the first visible line is not negative. *)
Theorem scroll_follows_cursor (tb : textbox) (k : cursor_key) :
  reachable tb → 1 ≤ height tb →
  ∃ moved, cursor_move k tb = Some moved ∧
    let shown := _adjust_scroll moved in
    scroll_pos shown ≤ current_line shown ≤ scroll_pos shown + height shown - 1 ∧
    0 ≤ scroll_pos shown.
Proof.
  intros Htb%reachable_ok Hh.
  destruct (cursor_move_ok k tb Htb) as (moved & Hmove & Hmoved).
  exists moved. split; [done|].
  assert (height moved = height tb) as Hsame.
  { clear -Hmove. destruct k; simpl in Hmove;
      unfold _move_up, _move_down, _move_left, _move_right, key_home, key_end,
             _page_up, _page_down, with_cursor in Hmove;
      repeat (case_decide || case_match || simplify_option_eq); done. }
  destruct Hmoved as [[_ Hline _] Hsp _]. revert Hline Hsp Hsame Hh.
  generalize (height tb). clear. destruct moved as [ls cl cc sp h]. simpl.
  intros h0 Hline Hsp -> Hh. unfold _adjust_scroll. simpl.
  repeat case_decide; simpl; lia.
Qed.

Lemma scroll_follows_cursor_witness :
  let text := lit "Hola" ++ LF :: lit "Si" ++ LF :: lit "Adios" in
  ∃ moved, cursor_move Down (Textbox (split_on LF text) 1 0 0 2) = Some moved ∧
    let shown := _adjust_scroll moved in
    (scroll_pos shown ≤ current_line shown ≤ scroll_pos shown + height shown - 1 ∧
     0 ≤ scroll_pos shown) ∧
    current_line shown = 2 ∧ scroll_pos moved = 0 ∧ scroll_pos shown = 1.
Proof.
  intros text.
  destruct (scroll_follows_cursor (Textbox (split_on LF text) 1 0 0 2) Down)
    as (moved & Hmove & Hshown).
  - apply (reach_key curses.KEY_DOWN (Textbox (split_on LF text) 0 0 0 2)); [|done].
    apply (reach_set_text text (new_textbox 2)); [apply reach_new; lia|done].
  - simpl. lia.
  - exists moved. split; [done|]. split; [done|].
    vm_compute in Hmove. injection Hmove as <-. by vm_compute.
Defined.

(** C6: at a boundary of the buffer every operation returns without an
    exception and leaves lines and cursor as they are: backspace and
    cursor-left at the start of the first line, forward delete and
    cursor-right at the end of the last line, cursor-up and page-up on the
    first line, cursor-down and page-down on the last line.  The page keys
    still move the scroll position. *)
Theorem boundary_operations_are_noops (tb : textbox) :
  textbox_ok tb →
  (current_line tb = 0 → current_col tb = 0 → _backspace tb = Some tb) ∧
  (current_line tb = last_line tb → current_col tb = line_length tb →
   _delete tb = Some tb) ∧
  (current_line tb = 0 → _move_up tb = Some tb) ∧
  (current_line tb = last_line tb → _move_down tb = Some tb) ∧
  (current_line tb = 0 → current_col tb = 0 → _move_left tb = Some tb) ∧
  (current_line tb = last_line tb → current_col tb = line_length tb →
   _move_right tb = Some tb) ∧
  (current_line tb = 0 →
   _page_up tb = Some (with_scroll tb (Z.max 0 (scroll_pos tb - height tb)))) ∧
  (current_line tb = last_line tb →
   _page_down tb =
   Some (with_scroll tb (Z.min (last_line tb) (scroll_pos tb + height tb)))).
Proof.
  destruct tb as [ls cl cc sp h].
  intros [[Hlen Hline (current & Hcur & Hcol)] Hsp Hh].
  unfold last_line, line_length, PyList.len in *.
  cbn [lines current_line current_col scroll_pos height] in *.
  rewrite Hcur.
  assert (PyList.index ls cl = Some current) as Hindex
    by (apply index_valid; [lia|done]).
  repeat split.
  - intros -> ->. unfold _backspace. simpl. repeat (case_decide; try lia); done.
  - intros Hlast ->. unfold _delete, PyList.len. simpl. rewrite Hindex. simpl.
    repeat (case_decide; try lia); done.
  - intros ->. unfold _move_up. simpl. repeat (case_decide; try lia); done.
  - intros Hlast. unfold _move_down, PyList.len. simpl.
    repeat (case_decide; try lia); done.
  - intros -> ->. unfold _move_left. simpl. repeat (case_decide; try lia); done.
  - intros Hlast ->. unfold _move_right, PyList.len. simpl. rewrite Hindex. simpl.
    repeat (case_decide; try lia); done.
  - intros ->. unfold _page_up, with_scroll. simpl.
    replace (Z.max 0 (0 - h)) with 0 by lia. rewrite Hindex. simpl.
    do 2 f_equal. unfold PyList.len. lia.
  - intros Hlast. unfold _page_down, with_scroll, PyList.len. simpl.
    replace (Z.min (Z.of_nat (length ls) - 1) (cl + h)) with cl by lia.
    rewrite Hindex. simpl. do 2 f_equal. unfold PyList.len. lia.
Qed.

Lemma boundary_operations_are_noops_witness :
  let tb := new_textbox 3 in
  _backspace tb = Some tb ∧ _delete tb = Some tb ∧
  _move_up tb = Some tb ∧ _move_down tb = Some tb ∧
  _move_left tb = Some tb ∧ _move_right tb = Some tb ∧
  _page_up tb = Some (with_scroll tb 0) ∧
  _page_down tb = Some (with_scroll tb 0).
Proof.
  intros tb.
  destruct (boundary_operations_are_noops tb (new_textbox_ok 3 ltac:(lia)))
    as (H1 & H2 & H3 & H4 & H5 & H6 & H7 & H8).
  exact (conj (H1 eq_refl eq_refl) (conj (H2 eq_refl eq_refl)
         (conj (H3 eq_refl) (conj (H4 eq_refl) (conj (H5 eq_refl eq_refl)
         (conj (H6 eq_refl eq_refl) (conj (H7 eq_refl) (H8 eq_refl)))))))).
Defined.

(** C7: a line break followed at once by a backspace gives back the
    buffer, line for line, and the cursor, line and column; neither raises
    an exception. *)
Theorem newline_then_backspace (tb : textbox) :
  buffer_inv tb → _insert_newline tb ≫= _backspace = Some tb.
Proof.
  intros (above & current & below & Hls & Hcl & Hcol)%buffer_inv_split.
  destruct tb as [ls cl cc sp h]. simpl in *. subst ls cl.
  unfold _insert_newline. simpl.
  rewrite index_middle by done. simpl.
  rewrite setitem_middle by done. simpl.
  rewrite upto_valid, from_valid by lia.
  set (head := take (Z.to_nat cc) current).
  set (tail := drop (Z.to_nat cc) current).
  replace (above ++ head :: below) with ((above ++ [head]) ++ below)
    by by rewrite <- (assoc_L (++)).
  rewrite insert_middle by (rewrite length_app; simpl; lia).
  unfold _backspace. simpl.
  repeat (case_decide; try lia).
  replace ((above ++ [head]) ++ tail :: below)
    with (above ++ head :: tail :: below) by by rewrite <- (assoc_L (++)).
  rewrite (index_middle above head _ (Z.of_nat (length above) + 1 - 1)) by lia.
  simpl.
  replace (above ++ head :: tail :: below)
    with ((above ++ [head]) ++ tail :: below) by by rewrite <- (assoc_L (++)).
  rewrite (index_middle (above ++ [head]) tail _ (Z.of_nat (length above) + 1))
    by (rewrite length_app; simpl; lia).
  simpl.
  replace ((above ++ [head]) ++ tail :: below)
    with (above ++ head :: tail :: below) by by rewrite <- (assoc_L (++)).
  rewrite (setitem_middle above head _ (Z.of_nat (length above) + 1 - 1)) by lia.
  simpl.
  replace (above ++ (head ++ tail) :: tail :: below)
    with ((above ++ [head ++ tail]) ++ tail :: below)
    by by rewrite <- (assoc_L (++)).
  rewrite pop_middle by (rewrite length_app; simpl; lia). simpl.
  unfold head, tail. rewrite take_drop, <- (assoc_L (++)). simpl.
  do 2 f_equal; unfold PyList.len in *; [lia|].
  rewrite length_take. lia.
Qed.

Lemma newline_then_backspace_witness :
  let tb := Textbox [lit "uno"; lit "dos tres"; lit "fin"] 1 3 0 5 in
  _insert_newline tb ≫= _backspace = Some tb.
Proof.
  intros tb. apply newline_then_backspace.
  apply (buffer_inv_intro _ _ _ _ _ (lit "dos tres")); [lia|done|].
  unfold PyList.len. simpl. lia.
Defined.

(** ** The key loop *)

Section edit_loop_facts.

(** The loop runs through dispatched keys and stays within the invariants. *)
Lemma edit_keys keys events tb :
  textbox_ok tb → Forall dispatched keys →
  ∃ tb', textbox_ok tb' ∧ edit ((Key <$> keys) ++ events) tb = edit events tb'.
Proof.
  intros Htb Hkeys. revert tb Htb.
  induction Hkeys as [|ch keys [Hch Hmax] _ IH]; intros tb Htb; [by exists tb|].
  cbn [fmap list_fmap app edit].
  destruct (_update_display_ok tb Htb) as (tb1 & -> & Htb1).
  rewrite decide_False by done.
  destruct (dispatch_ok ch Hmax tb1 Htb1) as (tb2 & -> & Htb2).
  by apply IH.
Qed.

(** A string other than the empty one is returned on Ctrl+G only, after
    keys alone. *)
Lemma edit_returns_text events : ∀ tb text,
  edit events tb = Returned text → text ≠ [] →
  ∃ keys later, events = (Key <$> keys) ++ Key 7 :: later ∧
                Forall (λ ch, ch ≠ 7) keys.
Proof.
  induction events as [|ev events IH]; intros tb text; [done|].
  destruct ev as [ch|[|]]; cbn [edit].
  - destruct (_update_display tb) as [tb1|]; [|done].
    case_decide as Hch.
    + intros _ _. subst ch. by exists [], events.
    + destruct (dispatch ch tb1) as [tb2|]; [|done].
      intros Hret Hne. destruct (IH _ _ Hret Hne) as (keys & later & -> & Hkeys).
      exists (ch :: keys), later. split; [done|by constructor].
  - destruct (_update_display tb); [|done]. by intros [= <-].
  - done.
Qed.

End edit_loop_facts.

(** C8: an interruption inside the [try] block, that is while [edit] waits
    for a key or dispatches it, makes [edit] return the empty string, as
    the except clause of the loop intends.  The redraw at the top of each
    iteration stands in front of the [try]: an interruption that arrives
    there leaves [edit] as KeyboardInterrupt, and the empty string is not
    returned. *)
Theorem interrupt_in_redraw_escapes
    (tb : textbox) (keys : list Z) (later : list event) :
  reachable tb → Forall dispatched keys →
  edit ((Key <$> keys) ++ Interrupt InTry :: later) tb = Returned [] ∧
  edit ((Key <$> keys) ++ Interrupt InRedraw :: later) tb = Raised KeyboardInterrupt ∧
  edit ((Key <$> keys) ++ Interrupt InRedraw :: later) tb ≠ Returned [].
Proof.
  intros Htb%reachable_ok Hkeys.
  assert (edit ((Key <$> keys) ++ Interrupt InRedraw :: later) tb =
          Raised KeyboardInterrupt) as Hredraw.
  { by destruct (edit_keys keys (Interrupt InRedraw :: later) tb Htb Hkeys)
      as (tb' & Htb' & ->). }
  split; [|split; [done|by rewrite Hredraw]].
  destruct (edit_keys keys (Interrupt InTry :: later) tb Htb Hkeys)
    as (tb' & Htb' & ->).
  cbn [edit]. by destruct (_update_display_ok tb' Htb') as (tb1 & -> & _).
Qed.

Lemma interrupt_in_redraw_escapes_witness :
  edit ((Key <$> [72; 105]) ++ Interrupt InTry :: [Key 7])
       (new_textbox 3) = Returned [] ∧
  edit ((Key <$> [72; 105]) ++ Interrupt InRedraw :: [Key 7])
       (new_textbox 3) = Raised KeyboardInterrupt ∧
  edit ((Key <$> [72; 105]) ++ Interrupt InRedraw :: [Key 7])
       (new_textbox 3) ≠ Returned [].
Proof.
  apply interrupt_in_redraw_escapes.
  - apply reach_new. lia.
  - repeat constructor; lia.
Defined.

(** ** generate_latex *)

Section generate_facts.

Context (left_dialogues right_dialogues : list (str * str)).

Let num_dialogues : Z :=
  Z.min (PyList.len left_dialogues) (PyList.len right_dialogues).

Let body (acc : option str) (i : Z) : option str :=
  latex ← acc;
  left ← PyList.index left_dialogues i;
  right ← PyList.index right_dialogues i;
  Some (latex ++ entry_text num_dialogues i left right).

(** The loop from entry [m] on, with the entries before it set apart. *)
Lemma generate_loop ls : ∀ rs ls0 rs0 latex,
  left_dialogues = ls0 ++ ls → right_dialogues = rs0 ++ rs →
  length ls0 = length rs0 →
  foldl body (Some latex)
        (seqZ (Z.of_nat (length ls0)) (Z.min (PyList.len ls) (PyList.len rs))) =
  Some (latex ++
        concat (imap (λ i entry,
                        entry_text num_dialogues (Z.of_nat (length ls0 + i))
                                   entry.1 entry.2)
                     (zip ls rs))).
Proof.
  induction ls as [|l ls IH]; intros rs ls0 rs0 latex Hl Hr Hlen.
  { rewrite seqZ_nil by (unfold PyList.len; simpl; lia).
    simpl. by rewrite app_nil_r. }
  destruct rs as [|r rs].
  { rewrite seqZ_nil by (unfold PyList.len; simpl; lia).
    simpl. by rewrite app_nil_r. }
  unfold PyList.len. rewrite seqZ_cons by (simpl; lia).
  cbn [foldl]. unfold body at 2. cbn [mbind option_bind].
  rewrite Hl at 1. rewrite index_middle by done. cbn [mbind option_bind].
  rewrite Hr at 1. rewrite index_middle by lia. cbn [mbind option_bind].
  specialize (IH rs (ls0 ++ [l]) (rs0 ++ [r])
                (latex ++ entry_text num_dialogues (Z.of_nat (length ls0)) l r)).
  rewrite length_app in IH. simpl in IH.
  replace (Z.succ (Z.of_nat (length ls0))) with (Z.of_nat (length ls0 + 1)) by lia.
  replace (Z.pred (Z.min (Z.of_nat (length (l :: ls))) (Z.of_nat (length (r :: rs)))))
    with (Z.min (PyList.len ls) (PyList.len rs))
    by (unfold PyList.len; simpl; lia).
  rewrite IH.
  - cbn [zip zip_with]. rewrite imap_cons. cbn [concat fst snd].
    rewrite Nat.add_0_r, <- !(assoc_L (++)). do 4 f_equal.
    apply imap_ext. intros i entry _. simpl. do 2 f_equal. lia.
  - by rewrite <- (assoc_L (++)).
  - by rewrite <- (assoc_L (++)).
  - rewrite length_app. simpl. lia.
Qed.

End generate_facts.

(** The document in terms of the paired entries. *)
Lemma generate_latex_zip title author left_dialogues right_dialogues :
  generate_latex title author left_dialogues right_dialogues =
  Some (document_head title author ++
        concat (imap (λ i pair,
                        entry_text (Z.min (PyList.len left_dialogues)
                                          (PyList.len right_dialogues))
                                   (Z.of_nat i) pair.1 pair.2)
                     (zip left_dialogues right_dialogues)) ++
        closing).
Proof.
  unfold generate_latex.
  pose proof (generate_loop left_dialogues right_dialogues
                left_dialogues right_dialogues [] []
                (document_head title author) eq_refl eq_refl eq_refl) as Hloop.
  cbn [length] in Hloop. cbv zeta in Hloop.
  change (Z.of_nat 0) with 0 in Hloop. rewrite Hloop. cbn [mbind option_bind].
  by rewrite <- (assoc_L (++)).
Qed.

(** ** Escaped text *)

Section escape_facts.

Lemma starts_with_cons a old c text :
  starts_with (a :: old) (c :: text) = N.eqb a c && starts_with old text.
Proof. done. Qed.

(** A one-character pattern is gone after its replacement by text that
    does not contain it. *)
Lemma replace_one_gone a new text : a ∉ new → a ∉ replace [a] new text.
Proof.
  intros Hnew.
  apply (replace_ind [a] new (λ _ r, a ∉ r)); [done|..].
  - apply not_elem_of_nil.
  - intros x t _ IH. rewrite elem_of_app. by intros [?|?].
  - intros x t Hx IH. apply not_elem_of_cons. split; [|done].
    simpl in Hx. rewrite andb_true_r in Hx. by apply N.eqb_neq in Hx.
Qed.

Lemma replace_backslash_t new text :
  (∀ r, backslash_t (new ++ r) = backslash_t r) →
  backslash_t (replace [92%N] new text) = true.
Proof.
  intros Hnew.
  apply (replace_ind [92%N] new (λ _ r, backslash_t r = true)); [done|done|..].
  - intros x t _ IH. by rewrite Hnew.
  - intros x t Hx IH. cbn [backslash_t]. rewrite IH, andb_true_r.
    rewrite starts_with_cons in Hx. apply andb_false_iff in Hx as [Hx|?]; [|done].
    rewrite N.eqb_sym in Hx. by rewrite Hx.
Qed.

Lemma replace_keeps_backslash_t a new text :
  a ≠ 92%N → a ≠ 116%N →
  (∀ r, backslash_t (new ++ r) = backslash_t r) →
  backslash_t text = true → backslash_t (replace [a] new text) = true.
Proof.
  intros Ha Hat Hnew. revert text.
  apply (replace_ind [a] new (λ t r,
           backslash_t t = true → backslash_t r = true)); [done|done|..].
  - intros x t Hhit IH. rewrite Hnew. cbn [drop length backslash_t].
    intros [_ Ht]%andb_true_iff. by apply IH.
  - intros x t Hmiss IH. cbn [backslash_t].
    intros [Hx Ht]%andb_true_iff. rewrite (IH Ht), andb_true_r.
    destruct (x =? 92)%N; [|done].
    destruct t as [|y t]; [done|]. rewrite starts_with_cons in Hx.
    apply andb_true_iff in Hx as [Hx _]. apply N.eqb_eq in Hx as <-.
    rewrite replace_miss; [|done|].
    + rewrite starts_with_cons. by rewrite N.eqb_refl.
    + rewrite starts_with_cons. apply andb_false_iff. left. by apply N.eqb_neq.
Qed.

Lemma backslash_t_no_pair c text :
  c ≠ 116%N → backslash_t text = true → has_infix [92%N; c] text = false.
Proof.
  intros Hc. induction text as [|x text IH]; [done|].
  cbn [backslash_t]. intros [Hx Ht]%andb_true_iff.
  rewrite has_infix_cons, (IH Ht), orb_false_r. rewrite starts_with_cons.
  destruct (N.eqb_spec 92 x) as [<-|]; [|done].
  change (starts_with [116%N] text = true) in Hx.
  destruct text as [|y text]; [done|]. rewrite !starts_with_cons in *.
  apply andb_true_iff in Hx as [Hx _]. apply N.eqb_eq in Hx as <-.
  cbn [andb]. apply andb_false_iff. left. by apply N.eqb_neq.
Qed.

Lemma escape_stages text :
  escape_latex_special_chars text =
  replace (lit ">") (lit "\textgreater{}")
    (replace (lit "<") (lit "\textless{}")
       (replace (lit "\") (lit "\textbackslash{}")
          (replace_all (take 9 latex_special_chars) text))).
Proof. done. Qed.

Lemma escape_backslash_t text :
  backslash_t (escape_latex_special_chars text) = true.
Proof.
  rewrite escape_stages.
  do 2 (apply replace_keeps_backslash_t; [done|done|done|]).
  by apply replace_backslash_t.
Qed.

Lemma escape_no_angle text :
  (60%N ∉ escape_latex_special_chars text) ∧
  (62%N ∉ escape_latex_special_chars text).
Proof.
  rewrite escape_stages. split.
  - apply replace_not_elem; [done| |].
    + apply (bool_decide_unpack _). by vm_compute.
    + apply (replace_one_gone 60%N).
      apply (bool_decide_unpack _). by vm_compute.
  - apply (replace_one_gone 62%N).
    apply (bool_decide_unpack _). by vm_compute.
Qed.

End escape_facts.

(** ** Counting the commands of the document *)

Section count_facts.

Lemma count_infix_cons p c text :
  count_infix p (c :: text) =
  ((if starts_with p (c :: text) then 1 else 0) + count_infix p text)%nat.
Proof. done. Qed.

Lemma count_infix_nil p : p ≠ [] → count_infix p [] = 0%nat.
Proof. by destruct p. Qed.

(** An occurrence does not reach across a character that the pattern does
    not contain. *)
Lemma count_infix_app_sep p a x b :
  p ≠ [] → x ∉ p →
  count_infix p (a ++ [x] ++ b) = (count_infix p a + count_infix p b)%nat.
Proof.
  intros Hp Hx. induction a as [|c a IH].
  - rewrite count_infix_nil by done. cbn [app]. rewrite count_infix_cons.
    destruct p as [|y p]; [done|]. rewrite starts_with_cons.
    apply not_elem_of_cons in Hx as [Hx _].
    by destruct (N.eqb_spec y x); [congruence|].
  - change ((c :: a) ++ [x] ++ b) with (c :: (a ++ [x] ++ b)).
    rewrite !count_infix_cons, IH.
    change (c :: (a ++ [x] ++ b)) with ((c :: a) ++ x :: b).
    rewrite starts_with_app_sep by done. lia.
Qed.

(** Text in which no backslash stands in front of a capital P, and which
    does not end in a backslash, holds no occurrence of a pattern that
    starts with these two characters, and none begins in it whatever
    follows. *)
Lemma count_infix_skip p a b :
  has_infix [92; 80]%N (a ++ [80%N]) = false →
  count_infix (92 :: 80 :: p)%N (a ++ b) = count_infix (92 :: 80 :: p)%N b.
Proof.
  induction a as [|c a IH]; [done|].
  change ((c :: a) ++ [80%N]) with (c :: (a ++ [80%N])).
  rewrite has_infix_cons. intros [Hc Ha]%orb_false_iff.
  change ((c :: a) ++ b) with (c :: (a ++ b)).
  rewrite count_infix_cons, (IH Ha).
  rewrite starts_with_cons in Hc |- *.
  destruct (N.eqb_spec 92 c) as [<-|]; [|done]. cbn [andb] in *.
  destruct a as [|d a]; [done|].
  change ((d :: a) ++ [80%N]) with (d :: (a ++ [80%N])) in Hc.
  change ((d :: a) ++ b) with (d :: (a ++ b)).
  rewrite starts_with_cons in Hc |- *. cbn [starts_with] in Hc.
  rewrite andb_true_r in Hc. by rewrite Hc.
Qed.

Lemma backslash_t_no_command text :
  backslash_t text = true → has_infix [92; 80]%N (text ++ [80%N]) = false.
Proof.
  induction text as [|c text IH]; [done|].
  cbn [backslash_t]. intros [Hc Ht]%andb_true_iff.
  change ((c :: text) ++ [80%N]) with (c :: (text ++ [80%N])).
  rewrite has_infix_cons, (IH Ht), orb_false_r, starts_with_cons.
  destruct (N.eqb_spec 92 c) as [<-|]; [|done].
  change (starts_with [116%N] text = true) in Hc.
  destruct text as [|d text]; [done|]. rewrite starts_with_cons in Hc.
  apply andb_true_iff in Hc as [Hd _]. apply N.eqb_eq in Hd as <-. done.
Qed.

(** The line breaks of a dialogue, written as a double backslash and a
    line feed, make no command either. *)
Lemma line_breaks_no_command text :
  backslash_t text = true →
  has_infix [92; 80]%N (replace [LF] (lit "\\" ++ [LF]) text ++ [80%N]) = false.
Proof.
  revert text.
  apply (replace_ind [LF] (lit "\\" ++ [LF]) (λ t r,
           backslash_t t = true → has_infix [92; 80]%N (r ++ [80%N]) = false));
    [done|done|..].
  - intros c text _ IH. cbn [length drop] in *. rewrite drop_0 in *.
    cbn [backslash_t]. intros [_ Ht]%andb_true_iff.
    change (lit "\\" ++ [LF]) with [92; 92; LF]%N in *. cbn [app].
    rewrite !has_infix_cons, !starts_with_cons. by rewrite (IH Ht).
  - intros c text Hc IH. cbn [backslash_t]. intros [Hbs Ht]%andb_true_iff.
    change ((c :: ?r) ++ [80%N]) with (c :: (r ++ [80%N])).
    rewrite has_infix_cons, (IH Ht), orb_false_r, starts_with_cons.
    destruct (N.eqb_spec 92 c) as [<-|]; [|done].
    change (starts_with [116%N] text = true) in Hbs.
    destruct text as [|d text]; [done|]. rewrite starts_with_cons in Hbs.
    apply andb_true_iff in Hbs as [Hd _]. apply N.eqb_eq in Hd as <-.
    by rewrite replace_miss.
Qed.

(** Blocks that each hold the pattern once hold it as often as there are
    blocks. *)
Lemma count_infix_blocks {A} p (block : nat → A → str) (l : list A) tail :
  (∀ i x rest, count_infix p (block i x ++ rest) = S (count_infix p rest)) →
  count_infix p (concat (imap block l) ++ tail) =
  (length l + count_infix p tail)%nat.
Proof.
  revert block. induction l as [|x l IH]; intros block Hblock; [done|].
  rewrite imap_cons. cbn [concat length]. rewrite <- (assoc_L (++)), Hblock.
  rewrite IH; [done|]. intros i y rest. apply Hblock.
Qed.

End count_facts.

Section command_count.

Context (p : str) (Hp : LF ∉ p).

Let command : str := (92 :: 80 :: p)%N.

Local Ltac skip_literal a :=
  rewrite (count_infix_skip p a) by (by vm_compute).

Lemma count_infix_side_text cmd entry rest :
  count_infix command (side_text cmd entry ++ rest) =
  (count_infix command cmd + count_infix command rest)%nat.
Proof.
  unfold side_text. rewrite <- !(assoc_L (++)).
  rewrite count_infix_app_sep; [|done|].
  2:{ unfold command. by repeat (apply not_elem_of_cons; split; [done|]). }
  f_equal. unfold command.
  skip_literal (lit "\charname{").
  rewrite (count_infix_skip p (escape_latex_special_chars _))
    by apply backslash_t_no_command, escape_backslash_t.
  skip_literal (lit "}"). skip_literal [LF].
  rewrite (count_infix_skip p (replace _ _ _))
    by apply line_breaks_no_command, escape_backslash_t.
  skip_literal [LF]. skip_literal (lit "}"). by skip_literal [LF].
Qed.

Lemma count_infix_entry_text n i left right rest :
  count_infix command (lit "\ParallelPar") = 0%nat →
  count_infix command (entry_text n i left right ++ rest) =
  (count_infix command (lit "\ParallelLText{%") +
   count_infix command (lit "\ParallelRText{%") +
   count_infix command rest)%nat.
Proof.
  intros Hpar. unfold entry_text.
  rewrite <- !(assoc_L (++)), !count_infix_side_text.
  case_decide; [|cbn [app]; lia].
  rewrite <- (assoc_L (++)), count_infix_app_sep, Hpar; [lia|done|].
  unfold command. by repeat (apply not_elem_of_cons; split; [done|]).
Qed.

Lemma count_infix_document_head title author rest :
  count_infix command (document_head title author ++ rest) =
  count_infix command rest.
Proof.
  unfold document_head, command. rewrite <- !(assoc_L (++)).
  skip_literal preamble.
  rewrite (count_infix_skip p (escape_latex_special_chars _))
    by apply backslash_t_no_command, escape_backslash_t.
  skip_literal after_title.
  rewrite (count_infix_skip p (escape_latex_special_chars _))
    by apply backslash_t_no_command, escape_backslash_t.
  by skip_literal after_author.
Qed.

End command_count.

(** The number of commands of one kind in a document. *)
Lemma count_infix_document p title author n (pairs : list ((str * str) * (str * str))) :
  LF ∉ p →
  count_infix (92 :: 80 :: p)%N (lit "\ParallelPar") = 0%nat →
  count_infix (92 :: 80 :: p)%N closing = 0%nat →
  (count_infix (92 :: 80 :: p)%N (lit "\ParallelLText{%") +
   count_infix (92 :: 80 :: p)%N (lit "\ParallelRText{%") = 1)%nat →
  count_infix (92 :: 80 :: p)%N
    (document_head title author ++
     concat (imap (λ i pair, entry_text n (Z.of_nat i) pair.1 pair.2) pairs) ++
     closing) = length pairs.
Proof.
  intros Hp Hpar Hclosing Hone.
  rewrite count_infix_document_head by done.
  rewrite (count_infix_blocks _ (λ i pair, entry_text n (Z.of_nat i) pair.1 pair.2)).
  - rewrite Hclosing. lia.
  - intros i pair rest. rewrite count_infix_entry_text by done. lia.
Qed.

(** C9: the document is the head, then one block for each position that
    both sequences have, then the closing text.  The block of a position
    holds, in this order, the name and the text of the left entry and the
    name and the text of the right entry at that position, each repaired and
    escaped.  The number of blocks is the smaller of the two lengths, and
    the document holds exactly this many [\ParallelLText] and as many
    [\ParallelRText] commands, so 3 of each for sequences of 3 and 5
    entries.  The generator raises no exception. *)
Theorem generate_latex_pairs
    (title author : str) (left_dialogues right_dialogues : list (str * str)) :
  let num_dialogues :=
    Z.min (PyList.len left_dialogues) (PyList.len right_dialogues) in
  let pairs := zip left_dialogues right_dialogues in
  let name label :=
    escape_latex_special_chars (fix_encoding (strip_chars (lit "[]") label)) in
  let text dialogue :=
    replace [LF] (lit "\\" ++ [LF])
            (escape_latex_special_chars (fix_encoding dialogue)) in
  let block (i : nat) (pair : (str * str) * (str * str)) :=
    lit "\ParallelLText{%" ++ [LF] ++
    lit "\charname{" ++ name pair.1.1 ++ lit "}" ++ [LF] ++
    text pair.1.2 ++ [LF] ++
    lit "}" ++ [LF] ++
    lit "\ParallelRText{%" ++ [LF] ++
    lit "\charname{" ++ name pair.2.1 ++ lit "}" ++ [LF] ++
    text pair.2.2 ++ [LF] ++
    lit "}" ++ [LF] ++
    (if decide (Z.of_nat i < num_dialogues - 1)
     then lit "\ParallelPar" ++ [LF] else []) in
  let document :=
    document_head title author ++ concat (imap block pairs) ++ closing in
  generate_latex title author left_dialogues right_dialogues = Some document ∧
  length pairs = Nat.min (length left_dialogues) (length right_dialogues) ∧
  count_infix (lit "\ParallelLText{") document = length pairs ∧
  count_infix (lit "\ParallelRText{") document = length pairs ∧
  (length left_dialogues = 3%nat → length right_dialogues = 5%nat →
   length pairs = 3%nat ∧
   count_infix (lit "\ParallelLText{") document = 3%nat ∧
   count_infix (lit "\ParallelRText{") document = 3%nat) ∧
  (length left_dialogues = 5%nat → length right_dialogues = 3%nat →
   length pairs = 3%nat ∧
   count_infix (lit "\ParallelLText{") document = 3%nat ∧
   count_infix (lit "\ParallelRText{") document = 3%nat).
Proof.
  intros num_dialogues pairs name text block document.
  assert (length pairs = Nat.min (length left_dialogues) (length right_dialogues))
    as Hlen by apply length_zip.
  assert (document =
          document_head title author ++
          concat (imap (λ i pair, entry_text num_dialogues (Z.of_nat i) pair.1 pair.2)
                       pairs) ++
          closing) as Hdoc.
  { unfold document. do 3 f_equal. apply imap_ext. intros i [l r] _.
    unfold block, entry_text, side_text, name, text. cbn [fst snd].
    by rewrite <- !(assoc_L (++)). }
  assert (count_infix (lit "\ParallelLText{") document = length pairs) as Hleft.
  { rewrite Hdoc.
    apply (count_infix_document (lit "arallelLText{")); try done.
    apply (bool_decide_unpack _). by vm_compute. }
  assert (count_infix (lit "\ParallelRText{") document = length pairs) as Hright.
  { rewrite Hdoc.
    apply (count_infix_document (lit "arallelRText{")); try done.
    apply (bool_decide_unpack _). by vm_compute. }
  split; [|split; [done|split; [done|split; [done|]]]].
  - rewrite Hdoc. apply generate_latex_zip.
  - rewrite Hleft, Hright, Hlen.
    split; intros Hl Hr; rewrite Hl, Hr; by repeat split.
Qed.

Lemma generate_latex_pairs_witness :
  let entry name text := (lit name, lit text) in
  let left_dialogues :=
    [entry "[Charlie]" "Hola"; entry "[Vaggie]" "Adios"; entry "[Angel Dust]" "Si"] in
  let right_dialogues :=
    [entry "[Charlie]" "Hello"; entry "[Vaggie]" "Bye"; entry "[Angel Dust]" "Yes";
     entry "[Husk]" "No"; entry "[Alastor]" "Ha"] in
  ∃ document,
    generate_latex (lit "T") (lit "A") left_dialogues right_dialogues = Some document ∧
    count_infix (lit "\ParallelLText{") document = 3%nat ∧
    count_infix (lit "\ParallelRText{") document = 3%nat ∧
    count_infix (lit "\charname{Angel Dust}" ++ [LF] ++ lit "Si") document = 1%nat ∧
    count_infix (lit "\charname{Angel Dust}" ++ [LF] ++ lit "Yes") document = 1%nat ∧
    has_infix (lit "Husk") document = false ∧
    has_infix (lit "Alastor") document = false.
Proof.
  intros entry left_dialogues right_dialogues.
  destruct (generate_latex_pairs (lit "T") (lit "A") left_dialogues right_dialogues)
    as (Hdoc & _ & _ & _ & H35 & _).
  destruct (H35 eq_refl eq_refl) as (_ & Hleft & Hright).
  eexists. split; [exact Hdoc|]. split; [exact Hleft|]. split; [exact Hright|].
  clear. vm_compute. by repeat split.
Defined.

(** * Further properties *)

(** ** More on fix_encoding *)

Section more_fix_encoding.

Lemma replace_all_length_le table text :
  Forall (λ fix_, fix_.1 ≠ [] ∧ ∃ c, fix_.2 = [c]) table →
  (length (replace_all table text) ≤ length text)%nat.
Proof.
  intros Htable. revert text.
  induction Htable as [|[old new] table (Hold & c & Hnew) _ IH]; intros text;
    [done|].
  simpl in Hold, Hnew. subst new. rewrite replace_all_cons.
  etrans; [apply IH|]. by apply replace_length_le.
Qed.

(** A two-character pattern passes over an occurrence of its first
    character that another character follows. *)
Lemma replace_pair_pass a b new c post : ∀ pre,
  a ≠ b → c ≠ a → c ≠ b →
  replace [a; b] new (pre ++ a :: c :: post) =
  replace [a; b] new pre ++ a :: c :: replace [a; b] new post.
Proof.
  intros pre Hab Hca Hcb. revert pre.
  assert (Hstart : ∀ x t, starts_with [a; b] (x :: t ++ a :: c :: post) =
                          starts_with [a; b] (x :: t)).
  { intros x [|y t]; cbn [starts_with app]; [|done].
    rewrite andb_false_r. destruct (N.eqb_spec a x); [|done].
    simpl. by destruct (N.eqb_spec b a). }
  apply (replace_ind [a; b] new (λ t r,
           replace [a; b] new (t ++ a :: c :: post) =
           r ++ a :: c :: replace [a; b] new post)); [done|..].
  - cbn [app]. rewrite !replace_miss; [done|done|..|done|].
    + cbn [starts_with]. by destruct (N.eqb_spec a c).
    + cbn [starts_with]. rewrite N.eqb_refl. by destruct (N.eqb_spec b c).
  - intros x t Hhit IH. cbn [app].
    rewrite replace_hit by (done || by rewrite Hstart).
    change (x :: t ++ a :: c :: post) with ((x :: t) ++ a :: c :: post).
    rewrite drop_app_le by by apply starts_with_length.
    by rewrite IH, (assoc_L (++)).
  - intros x t Hmiss IH. cbn [app].
    rewrite replace_miss by (done || by rewrite Hstart). by rewrite IH.
Qed.

(** A two-character pattern is replaced wherever it stands. *)
Lemma replace_pair_there a b new post : ∀ pre,
  a ≠ b →
  replace [a; b] new (pre ++ a :: b :: post) =
  replace [a; b] new pre ++ new ++ replace [a; b] new post.
Proof.
  intros pre Hab. revert pre.
  assert (Hstart : ∀ x t, starts_with [a; b] (x :: t ++ a :: b :: post) =
                          starts_with [a; b] (x :: t)).
  { intros x [|y t]; cbn [starts_with app]; [|done].
    rewrite andb_false_r. destruct (N.eqb_spec a x); [|done].
    simpl. by destruct (N.eqb_spec b a). }
  apply (replace_ind [a; b] new (λ t r,
           replace [a; b] new (t ++ a :: b :: post) =
           r ++ new ++ replace [a; b] new post)); [done|..].
  - cbn [app]. rewrite replace_hit; [done|done|].
    cbn [starts_with]. by rewrite !N.eqb_refl.
  - intros x t Hhit IH. cbn [app].
    rewrite replace_hit by (done || by rewrite Hstart).
    change (x :: t ++ a :: b :: post) with ((x :: t) ++ a :: b :: post).
    rewrite drop_app_le by by apply starts_with_length.
    by rewrite IH, (assoc_L (++)).
  - intros x t Hmiss IH. cbn [app].
    rewrite replace_miss by (done || by rewrite Hstart). by rewrite IH.
Qed.

Lemma replace_all_pair_pass table a c pre post :
  Forall (λ fix_, ∃ b, fix_.1 = [a; b] ∧ a ≠ b ∧ c ≠ b) table → c ≠ a →
  replace_all table (pre ++ a :: c :: post) =
  replace_all table pre ++ a :: c :: replace_all table post.
Proof.
  intros Htable Hca. revert pre post.
  induction Htable as [|[old new] table (b & Hold & Hab & Hcb) _ IH];
    intros pre post; [done|].
  simpl in Hold. subst old.
  rewrite !replace_all_cons, replace_pair_pass by done. apply IH.
Qed.

Lemma replace_all_app table1 table2 text :
  replace_all (table1 ++ table2) text = replace_all table2 (replace_all table1 text).
Proof. apply foldl_app. Qed.

(** The entry at position [k] of the table, if the entries before it are
    pairs that start like it and its replacement is in no later pattern. *)
Lemma replace_all_pair_at table k a b y pre post :
  table !! k = Some ([a; b], [y]) →
  a ≠ b →
  Forall (λ fix_, ∃ b', fix_.1 = [a; b'] ∧ a ≠ b' ∧ b ≠ b') (take k table) →
  Forall (λ fix_, fix_.1 ≠ [] ∧ y ∉ fix_.1) (drop (S k) table) →
  replace_all table (pre ++ a :: b :: post) =
  replace_all table pre ++ y :: replace_all table post.
Proof.
  intros Hk Hab Hbefore Hafter.
  rewrite <- (take_drop_middle table k _ Hk).
  rewrite !replace_all_app, !replace_all_cons.
  rewrite replace_all_pair_pass by done.
  rewrite replace_pair_there by done.
  cbn [app]. by rewrite replace_all_app_sep.
Qed.

End more_fix_encoding.

(** X1: text without A-circumflex and A-tilde, so all ASCII text, is
    returned as it is. *)
Theorem fix_encoding_plain_text (s : str) :
  194%N ∉ s → 195%N ∉ s → fix_encoding s = s.
Proof.
  intros H194 H195. apply settled_fixed. split; [done|].
  split; (eapply absent_without_elem; [|exact H194]); by left.
Qed.

Lemma fix_encoding_plain_text_witness :
  fix_encoding (lit "[Charlie] Nadie podra negar!") = lit "[Charlie] Nadie podra negar!".
Proof.
  apply fix_encoding_plain_text;
    apply (bool_decide_unpack _); by vm_compute.
Defined.

(** X2: the result never contains the A-tilde and is never longer than
    the input. *)
Theorem fix_encoding_output (s : str) :
  (195%N ∉ fix_encoding s) ∧ (length (fix_encoding s) ≤ length s)%nat.
Proof.
  split; [apply fix_encoding_no_A_tilde|].
  apply replace_all_length_le.
  repeat apply Forall_cons_2; try apply Forall_nil_2; cbn [fst snd];
    (split; [done|by eexists]).
Qed.

(** X3: a second pass changes nothing exactly on the strings in which no
    A-circumflex stands directly in front of a garbled inverted exclamation
    or question mark. *)
Theorem fix_encoding_idempotent_iff (s : str) :
  fix_encoding (fix_encoding s) = fix_encoding s ↔
  has_infix [194; 194; 161]%N s = false ∧ has_infix [194; 194; 191]%N s = false.
Proof.
  split.
  - intros Heq. destruct (decide (undoubled s)) as [|Hno]; [done|].
    by apply fix_encoding_doubled_changes in Hno.
  - intros Hs. by apply settled_fixed, fix_encoding_settles.
Qed.

(** X4: each of the six lower-case garbled pairs is repaired wherever it
    stands: the text before it and the text after it are normalized on
    their own. *)
Theorem fix_encoding_lowercase (k : nat) (b y : char) (pre post : str) :
  (k < 6)%nat → encoding_fixes !! k = Some ([195%N; b], [y]) →
  fix_encoding (pre ++ 195%N :: b :: post) =
  fix_encoding pre ++ y :: fix_encoding post.
Proof.
  intros Hk Hentry. unfold fix_encoding.
  destruct k as [|[|[|[|[|[|k]]]]]]; [..|lia];
    match type of Hentry with
    | _ !! ?n = _ =>
        apply (replace_all_pair_at encoding_fixes n); [done|by injection Hentry as <-|..]
    end;
    injection Hentry as <- <-.
  all: try (cbn [take encoding_fixes];
            repeat apply Forall_cons_2; try apply Forall_nil_2; cbn [fst];
            by eexists).
  all: cbn [drop encoding_fixes];
       repeat apply Forall_cons_2; try apply Forall_nil_2; cbn [fst];
       (split; [done|solve_not_elem]).
Qed.

Lemma fix_encoding_lowercase_witness :
  fix_encoding (lit "ma" ++ 195%N :: 177%N :: lit "ana") =
  fix_encoding (lit "ma") ++ 241%N :: fix_encoding (lit "ana").
Proof.
  apply (fix_encoding_lowercase 5 177%N 241%N (lit "ma") (lit "ana")).
  - lia.
  - reflexivity.
Defined.

(** X5: a character below 129, so every ASCII character and the line
    feed, separates: the text on either side is normalized on its own. *)
Theorem fix_encoding_separator (x : char) (pre post : str) :
  (x < 129)%N →
  fix_encoding (pre ++ x :: post) = fix_encoding pre ++ x :: fix_encoding post.
Proof.
  intros Hx. apply replace_all_app_sep.
  repeat apply Forall_cons_2; try apply Forall_nil_2; cbn [fst];
    (split; [done|]);
    repeat (apply not_elem_of_cons; split; [lia|]); apply not_elem_of_nil.
Qed.

Lemma fix_encoding_separator_witness :
  fix_encoding (lit "se" ++ 195%N :: 177%N :: lit "or" ++ LF :: [194; 161]%N ++ lit "Hola") =
  fix_encoding (lit "se" ++ 195%N :: 177%N :: lit "or") ++
  LF :: fix_encoding ([194; 161]%N ++ lit "Hola").
Proof.
  apply (fix_encoding_separator LF (lit "se" ++ 195%N :: 177%N :: lit "or")).
  reflexivity.
Defined.

(** ** escape_latex_special_chars *)

(** X6: text without any of the twelve special characters is returned as
    it is. *)
Theorem escape_plain_text (text : str) :
  (∀ c, c ∈ lit "&%$#_{}~^\<>" → c ∉ text) →
  escape_latex_special_chars text = text.
Proof.
  intros Hplain. apply replace_all_absent.
  repeat apply Forall_cons_2; try apply Forall_nil_2; cbn [fst];
    (eapply absent_without_elem; [by left|]);
    apply Hplain; apply (bool_decide_unpack _); by vm_compute.
Qed.

Lemma escape_plain_text_witness :
  escape_latex_special_chars (lit "Hello there, Vaggie!") = lit "Hello there, Vaggie!".
Proof.
  apply escape_plain_text. intros c Hc.
  apply (bool_decide_unpack _).
  repeat (apply elem_of_cons in Hc as [->|Hc]; [by vm_compute|]).
  by apply elem_of_nil in Hc.
Defined.

(** X7: in the result every backslash is directly followed by the letter
    t, and no angle bracket is left.  The backslash that the first entries
    of the table put in front of a special character is itself replaced by
    the later backslash entry, so none of [\&], [\%], [\$], [\#], [\_],
    [\{], [\}] ever occurs in the result. *)
Theorem escape_output (text : str) :
  let escaped := escape_latex_special_chars text in
  backslash_t escaped = true ∧
  (60%N ∉ escaped) ∧ (62%N ∉ escaped) ∧
  Forall (λ c, has_infix [92%N; c] escaped = false) (lit "&%$#_{}").
Proof.
  intros escaped. pose proof (escape_backslash_t text) as Ht.
  destruct (escape_no_angle text) as [Hlt Hgt].
  split; [done|]. split; [done|]. split; [done|].
  repeat apply Forall_cons_2; try apply Forall_nil_2;
    by apply backslash_t_no_pair.
Qed.

(** ** More on parse_character_dialogue *)

(** X8: the labels of the result are the parts of the split that the loop
    takes for character names, in their order; every one of them makes an
    entry, also when no dialogue follows it. *)
Theorem parse_labels (text : str) :
  (parse_character_dialogue text).*1 =
  filter (λ part, is_character part) (re_split (fix_encoding text)).
Proof.
  unfold parse_character_dialogue. case_bool_decide as Hblank.
  - apply blank_no_bracket in Hblank.
    rewrite re_split_plain by (apply fix_encoding_no_bracket; [by left|done]).
    rewrite filter_cons_False; [done|].
    rewrite is_character_plain; [by intros []|].
    apply fix_encoding_no_bracket; [by left|done].
  - unfold parse_parts. rewrite parse_loop_labels.
    cbn [fmap list_fmap option_list app].
    apply filter_character_drop_blank_head.
Qed.

(** X9: the dialogue of every entry of the result is trimmed: stripping
    it again changes nothing. *)
Theorem parse_dialogues_trimmed (text : str) :
  Forall (λ entry, strip entry.2 = entry.2) (parse_character_dialogue text).
Proof.
  unfold parse_character_dialogue. case_bool_decide; [done|].
  by apply parse_loop_stripped.
Qed.

(** X10: a bracketed one-line name, dialogue without an opening bracket
    and then the next bracketed one-line name: the first entry is the
    normalized name in its brackets with the normalized, trimmed dialogue,
    and the rest of the result is the parse of the text from the next name
    on. *)
Theorem parse_first_entry (name text name2 rest : str) :
  name ≠ [] → RBRACKET ∉ name → LF ∉ name → LBRACKET ∉ text →
  name2 ≠ [] → RBRACKET ∉ name2 → LF ∉ name2 →
  parse_character_dialogue
    (LBRACKET :: name ++ RBRACKET :: text ++ LBRACKET :: name2 ++ RBRACKET :: rest) =
  (LBRACKET :: fix_encoding name ++ [RBRACKET], strip (fix_encoding text)) ::
  parse_character_dialogue (LBRACKET :: name2 ++ RBRACKET :: rest).
Proof.
  intros Hne Hname Hlf Htext Hne2 Hname2 Hlf2.
  rewrite (parse_from_name name) by done.
  rewrite (parse_from_name name2) by done.
  rewrite (fix_encoding_app_bracket LBRACKET) by by left.
  rewrite (fix_encoding_app_bracket RBRACKET) by by right.
  rewrite re_split_marker.
  2:{ apply fix_encoding_no_bracket; [by left|done]. }
  2:{ by apply fix_encoding_nonempty. }
  2:{ apply fix_encoding_no_bracket; [by right|done]. }
  rewrite parse_parts_named.
  2:{ apply is_character_name; [by apply fix_encoding_nonempty|].
      by apply fix_encoding_no_line_feed. }
  2:{ apply is_character_plain, fix_encoding_no_bracket; [by left|done]. }
  cbn [foldl]. unfold parse_step at 2.
  rewrite is_character_name
    by (by apply fix_encoding_nonempty || by apply fix_encoding_no_line_feed).
  cbn [result current_character current_dialogue app].
  rewrite parse_loop_result. cbn [app]. f_equal.
  symmetry. apply parse_parts_name_head.
  apply is_character_name; [by apply fix_encoding_nonempty|].
  by apply fix_encoding_no_line_feed.
Qed.

Lemma parse_first_entry_witness :
  parse_character_dialogue
    (LBRACKET :: lit "Angel Dust" ++ RBRACKET :: lit " Line one" ++ LF :: lit "Line two " ++
     LBRACKET :: lit "Husk" ++ RBRACKET :: lit " No.") =
  (LBRACKET :: fix_encoding (lit "Angel Dust") ++ [RBRACKET],
   strip (fix_encoding (lit " Line one" ++ LF :: lit "Line two "))) ::
  parse_character_dialogue (LBRACKET :: lit "Husk" ++ RBRACKET :: lit " No.").
Proof.
  apply (parse_first_entry (lit "Angel Dust")
           (lit " Line one" ++ LF :: lit "Line two ") (lit "Husk") (lit " No."));
    try done; apply (bool_decide_unpack _); by vm_compute.
Defined.

(** X11: a bracketed one-line name followed by dialogue without an opening
    bracket gives exactly one entry: the normalized name in its brackets
    with the normalized, trimmed dialogue. *)
Theorem parse_last_entry (name text : str) :
  name ≠ [] → RBRACKET ∉ name → LF ∉ name → LBRACKET ∉ text →
  parse_character_dialogue (LBRACKET :: name ++ RBRACKET :: text) =
  [(LBRACKET :: fix_encoding name ++ [RBRACKET], strip (fix_encoding text))].
Proof.
  intros Hne Hname Hlf Htext.
  rewrite (parse_from_name name) by done.
  rewrite re_split_plain by (apply fix_encoding_no_bracket; [by left|done]).
  rewrite parse_parts_named; [done|..].
  - apply is_character_name; [by apply fix_encoding_nonempty|].
    by apply fix_encoding_no_line_feed.
  - apply is_character_plain, fix_encoding_no_bracket; [by left|done].
Qed.

Lemma parse_last_entry_witness :
  parse_character_dialogue (LBRACKET :: lit "Vaggie" ++ RBRACKET :: lit " Hi ") =
  [(LBRACKET :: fix_encoding (lit "Vaggie") ++ [RBRACKET],
    strip (fix_encoding (lit " Hi ")))].
Proof.
  apply (parse_last_entry (lit "Vaggie") (lit " Hi "));
    try done; apply (bool_decide_unpack _); by vm_compute.
Defined.

(** X12: a bracketed name that is broken over lines is split off but not
    taken for a character name: with no other name in the text the result
    is empty and the whole text is lost. *)
Theorem parse_broken_name (name rest : str) :
  LF ∈ name → RBRACKET ∉ name → LBRACKET ∉ rest →
  parse_character_dialogue (LBRACKET :: name ++ RBRACKET :: rest) = [].
Proof.
  intros Hlf Hname Hrest.
  assert (name ≠ []) as Hne by (intros ->; by apply elem_of_nil in Hlf).
  rewrite (parse_from_name name) by done.
  rewrite re_split_plain by (apply fix_encoding_no_bracket; [by left|done]).
  unfold parse_parts. cbn [foldl]. unfold parse_step at 2.
  rewrite is_character_broken_name.
  2:{ by apply fix_encoding_keeps_line_feed. }
  2:{ apply fix_encoding_no_bracket; [by right|done]. }
  unfold parse_step.
  rewrite is_character_plain; [done|].
  apply fix_encoding_no_bracket; [by left|done].
Qed.

Lemma parse_broken_name_witness :
  parse_character_dialogue
    (LBRACKET :: (lit "Angel" ++ LF :: lit "Dust") ++ RBRACKET :: lit " Hola") = [].
Proof.
  apply (parse_broken_name (lit "Angel" ++ LF :: lit "Dust") (lit " Hola"));
    apply (bool_decide_unpack _); by vm_compute.
Defined.

(** ** More on the line buffer *)

Section more_buffer.

Lemma col_as_nat cc (current : list N) :
  0 ≤ cc ≤ PyList.len current →
  ∃ n, cc = Z.of_nat n ∧ (n ≤ length current)%nat.
Proof.
  unfold PyList.len. intros Hcc. exists (Z.to_nat cc). lia.
Qed.

Lemma take_insert_at n (c : N) current :
  (n ≤ length current)%nat →
  take n (take n current ++ c :: drop n current) = take n current.
Proof.
  intros Hn. rewrite take_app_le by (rewrite length_take; lia).
  rewrite take_take. f_equal. lia.
Qed.

Lemma drop_insert_at n (c : N) current :
  (n ≤ length current)%nat →
  drop (S n) (take n current ++ c :: drop n current) = drop n current.
Proof.
  intros Hn. rewrite drop_app_ge by (rewrite length_take; lia).
  rewrite length_take. by replace (S n - n `min` length current)%nat with 1%nat by lia.
Qed.

Lemma insert_at_end (l : list (list N)) i y :
  i = Z.of_nat (length l) → PyList.insert l i y = l ++ [y].
Proof.
  intros Hi. pose proof (insert_middle l [] i y Hi) as H.
  by rewrite app_nil_r in H.
Qed.

Lemma join_cons sep p parts :
  parts ≠ [] → join sep (p :: parts) = p ++ sep ++ join sep parts.
Proof. by destruct parts. Qed.

Lemma join_snoc_app sep before a b :
  join sep (before ++ [a ++ b]) = join sep (before ++ [a]) ++ b.
Proof.
  induction before as [|x before IH]; [done|].
  cbn [app]. rewrite !join_cons by by destruct before.
  by rewrite IH, <- !(assoc_L (++)).
Qed.

Lemma join_snoc sep before a b :
  join sep ((before ++ [a]) ++ [b]) = join sep (before ++ [a]) ++ sep ++ b.
Proof.
  induction before as [|x before IH]; [done|].
  cbn [app]. rewrite !join_cons by by destruct before.
  by rewrite IH, <- !(assoc_L (++)).
Qed.


Lemma _adjust_scroll_buffer tb :
  lines (_adjust_scroll tb) = lines tb ∧
  current_line (_adjust_scroll tb) = current_line tb ∧
  current_col (_adjust_scroll tb) = current_col tb ∧
  height (_adjust_scroll tb) = height tb.
Proof. unfold _adjust_scroll. by repeat case_decide. Qed.

Lemma at_end_index tb before last :
  lines tb = before ++ [last] → current_line tb = PyList.len before →
  PyList.index (lines tb) (current_line tb) = Some last.
Proof. intros -> ->. by apply index_middle. Qed.

Lemma _update_display_at_end tb :
  at_end tb →
  ∃ tb', _update_display tb = Some tb' ∧ at_end tb' ∧
         lines tb' = lines tb ∧ height tb' = height tb.
Proof.
  intros (before & last & Hls & Hcl & Hcc).
  destruct (_adjust_scroll_buffer tb) as (Hl & Hc & Hk & Hh).
  exists (_adjust_scroll tb). unfold _update_display.
  rewrite (at_end_index (_adjust_scroll tb) before last) by congruence.
  split; [done|]. split; [|done].
  exists before, last. by rewrite Hl, Hc, Hk.
Qed.

Lemma dispatch_typable c tb :
  typable c →
  dispatch (Z.of_N c) tb =
  if decide (c = LF) then _insert_newline tb else _insert_char c tb.
Proof.
  unfold typable, command_keys, LF.
  intros [->|[Hc|[Hc Hkeys]]].
  - done.
  - rewrite decide_False by lia. unfold dispatch, chr.
    unfold curses.KEY_UP, curses.KEY_DOWN, curses.KEY_LEFT, curses.KEY_RIGHT,
      curses.KEY_HOME, curses.KEY_END, curses.KEY_PPAGE, curses.KEY_NPAGE,
      curses.KEY_BACKSPACE, curses.KEY_DC, curses.KEY_RESIZE.
    repeat (rewrite decide_False by lia).
    rewrite !decide_True by lia. by rewrite N2Z.id.
  - rewrite decide_False by lia.
    repeat (apply not_elem_of_cons in Hkeys as [? Hkeys]).
    unfold dispatch, chr.
    repeat (rewrite decide_False by (done || lia)).
    rewrite !decide_True by lia. by rewrite N2Z.id.
Qed.

Lemma _insert_char_at_end c tb :
  at_end tb →
  ∃ tb', _insert_char c tb = Some tb' ∧ at_end tb' ∧
         join [LF] (lines tb') = join [LF] (lines tb) ++ [c] ∧
         height tb' = height tb.
Proof.
  destruct tb as [ls cl cc sp h].
  intros (before & last & Hls & Hcl & Hcc). simpl in *. subst ls cl cc.
  unfold _insert_char. simpl.
  rewrite index_middle by done. simpl.
  rewrite setitem_middle by done. simpl.
  rewrite upto_valid, from_valid by (unfold PyList.len; lia).
  unfold PyList.len. rewrite Nat2Z.id, take_ge, drop_ge by lia.
  eexists. split; [done|]. simpl. split; [|split; [|done]].
  - exists before, (last ++ [c]). simpl. unfold PyList.len.
    rewrite length_app. simpl. split; [done|]. split; [done|lia].
  - apply join_snoc_app.
Qed.

Lemma _insert_newline_at_end tb :
  at_end tb →
  ∃ tb', _insert_newline tb = Some tb' ∧ at_end tb' ∧
         join [LF] (lines tb') = join [LF] (lines tb) ++ [LF] ∧
         height tb' = height tb.
Proof.
  destruct tb as [ls cl cc sp h].
  intros (before & last & Hls & Hcl & Hcc). simpl in *. subst ls cl cc.
  unfold _insert_newline. simpl.
  rewrite index_middle by done. simpl.
  rewrite setitem_middle by done. simpl.
  rewrite upto_valid, from_valid by (unfold PyList.len; lia).
  unfold PyList.len. rewrite Nat2Z.id, take_ge, drop_ge by lia.
  rewrite insert_at_end by (rewrite length_app; simpl; lia).
  eexists. split; [done|]. simpl. split; [|split; [|done]].
  - exists (before ++ [last]), []. simpl. unfold PyList.len.
    rewrite length_app. simpl. split; [done|]. split; [lia|done].
  - by rewrite join_snoc, app_nil_r.
Qed.

(** Typing from a state with the cursor at the end of the buffer. *)
Lemma edit_typed text : ∀ events tb,
  at_end tb → Forall typable text →
  ∃ tb', at_end tb' ∧
         join [LF] (lines tb') = join [LF] (lines tb) ++ text ∧
         edit (type_keys text ++ events) tb = edit events tb'.
Proof.
  induction text as [|c text IH]; intros events tb Htb Htext.
  { exists tb. by rewrite app_nil_r. }
  apply Forall_cons in Htext as [Hc Htext].
  destruct (_update_display_at_end tb Htb) as (tb1 & Hshow & Htb1 & Hl1 & _).
  assert (∃ tb2, dispatch (Z.of_N c) tb1 = Some tb2 ∧ at_end tb2 ∧
                 join [LF] (lines tb2) = join [LF] (lines tb1) ++ [c])
    as (tb2 & Hkey & Htb2 & Hl2).
  { rewrite dispatch_typable by done. case_decide as Hlf.
    - subst c. destruct (_insert_newline_at_end tb1 Htb1) as (tb2 & ? & ? & ? & _).
      by exists tb2.
    - destruct (_insert_char_at_end c tb1 Htb1) as (tb2 & ? & ? & ? & _).
      by exists tb2. }
  destruct (IH events tb2 Htb2 Htext) as (tb' & Htb' & Hl' & Hedit).
  exists tb'. split; [done|]. split.
  - rewrite Hl', Hl2, Hl1. by rewrite <- (assoc_L (++)).
  - cbn [type_keys fmap list_fmap app edit]. rewrite Hshow.
    rewrite decide_False.
    2:{ destruct Hc as [->|[?|[? _]]]; [done|lia..]. }
    by rewrite Hkey.
Qed.

End more_buffer.

(** X13: typing a character and then pressing backspace gives back the
    buffer and the cursor; neither raises an exception. *)
Theorem insert_char_then_backspace (c : char) (tb : textbox) :
  buffer_inv tb → _insert_char c tb ≫= _backspace = Some tb.
Proof.
  intros (above & current & below & Hls & Hcl & Hcol)%buffer_inv_split.
  destruct tb as [ls cl cc sp h]. simpl in *. subst ls cl.
  destruct (col_as_nat cc current Hcol) as (n & -> & Hn).
  unfold _insert_char. simpl.
  rewrite index_middle by done. simpl.
  rewrite setitem_middle by done. simpl.
  rewrite upto_valid, from_valid by lia. rewrite Nat2Z.id.
  unfold _backspace. simpl. rewrite decide_True by lia.
  rewrite index_middle by done. simpl.
  rewrite setitem_middle by done. simpl.
  rewrite upto_valid, from_valid by lia.
  replace (Z.to_nat (Z.of_nat n + 1 - 1)) with n by lia.
  replace (Z.to_nat (Z.of_nat n + 1)) with (S n) by lia.
  rewrite take_insert_at, drop_insert_at, take_drop by done.
  do 2 f_equal. lia.
Qed.

Lemma insert_char_then_backspace_witness :
  let tb := Textbox [lit "uno"; lit "dos tres"; lit "fin"] 1 3 0 5 in
  _insert_char 120%N tb ≫= _backspace = Some tb.
Proof.
  intros tb. apply insert_char_then_backspace.
  apply (buffer_inv_intro _ _ _ _ _ (lit "dos tres")); [lia|done|].
  unfold PyList.len. simpl. lia.
Defined.

(** X14: a line break, cursor-left and forward delete give back the
    buffer and the cursor: the delete at the end of the first half joins
    the two halves again. *)
Theorem newline_left_delete (tb : textbox) :
  buffer_inv tb →
  (_insert_newline tb ≫= _move_left) ≫= _delete = Some tb.
Proof.
  intros (above & current & below & Hls & Hcl & Hcol)%buffer_inv_split.
  destruct tb as [ls cl cc sp h]. simpl in *. subst ls cl.
  destruct (col_as_nat cc current Hcol) as (n & -> & Hn).
  unfold _insert_newline. simpl.
  rewrite index_middle by done. simpl.
  rewrite setitem_middle by done. simpl.
  rewrite upto_valid, from_valid by lia. rewrite Nat2Z.id.
  set (head := take n current). set (tail := drop n current).
  replace (above ++ head :: below) with ((above ++ [head]) ++ below)
    by by rewrite <- (assoc_L (++)).
  rewrite insert_middle by (rewrite length_app; simpl; lia).
  rewrite <- (assoc_L (++)). cbn [app].
  unfold _move_left. simpl. repeat (case_decide; try lia).
  rewrite (index_middle above head _ (Z.of_nat (length above) + 1 - 1)) by lia.
  simpl. unfold _delete, with_cursor. simpl.
  rewrite (index_middle above head _ (Z.of_nat (length above) + 1 - 1)) by lia.
  simpl. rewrite decide_False by lia.
  rewrite decide_True
    by (unfold PyList.len; rewrite length_app; simpl; lia).
  replace (above ++ head :: tail :: below)
    with ((above ++ [head]) ++ tail :: below) by by rewrite <- (assoc_L (++)).
  rewrite (index_middle (above ++ [head]) tail _ (Z.of_nat (length above) + 1 - 1 + 1))
    by (rewrite length_app; simpl; lia).
  simpl. rewrite <- (assoc_L (++)). cbn [app].
  rewrite (setitem_middle above head _ (Z.of_nat (length above) + 1 - 1)) by lia.
  simpl.
  replace (above ++ (head ++ tail) :: tail :: below)
    with ((above ++ [head ++ tail]) ++ tail :: below)
    by by rewrite <- (assoc_L (++)).
  rewrite pop_middle by (rewrite length_app; simpl; lia).
  unfold with_lines. simpl.
  unfold head, tail. rewrite take_drop, <- (assoc_L (++)). simpl.
  do 2 f_equal; unfold PyList.len; [lia|]. rewrite length_take. lia.
Qed.

Lemma newline_left_delete_witness :
  let tb := Textbox [lit "uno"; lit "dos tres"; lit "fin"] 1 3 0 5 in
  (_insert_newline tb ≫= _move_left) ≫= _delete = Some tb.
Proof.
  intros tb. apply newline_left_delete.
  apply (buffer_inv_intro _ _ _ _ _ (lit "dos tres")); [lia|done|].
  unfold PyList.len. simpl. lia.
Defined.

(** X15: cursor-right undoes cursor-left unless the cursor stands at the
    start of the buffer, and cursor-left undoes cursor-right unless it
    stands at the end of the buffer; the line breaks count as one step. *)
Theorem left_right_round_trip (tb : textbox) :
  buffer_inv tb →
  (current_line tb ≠ 0 ∨ current_col tb ≠ 0 →
   _move_left tb ≫= _move_right = Some tb) ∧
  (current_line tb ≠ last_line tb ∨ current_col tb ≠ line_length tb →
   _move_right tb ≫= _move_left = Some tb).
Proof.
  destruct tb as [ls cl cc sp h].
  intros [Hlen Hline (current & Hcur & Hcol)].
  unfold last_line, line_length, PyList.len in *.
  cbn [lines current_line current_col scroll_pos height] in *. rewrite Hcur.
  assert (PyList.index ls cl = Some current) as Hindex
    by (apply index_valid; [lia|done]).
  split; intros Hnot.
  - unfold _move_left. simpl. case_decide.
    + simpl. unfold _move_right, with_cursor. simpl. rewrite Hindex. simpl.
      rewrite decide_True by (unfold PyList.len; lia).
      do 2 f_equal. lia.
    + rewrite decide_True by lia.
      destruct (index_in_range ls (cl - 1)) as (target & Ht & Hti);
        [unfold PyList.len; lia|].
      rewrite Hti. simpl. unfold _move_right, with_cursor. simpl.
      rewrite Hti. simpl. rewrite decide_False by lia.
      rewrite decide_True by (unfold PyList.len; lia).
      f_equal. f_equal; lia.
  - unfold _move_right. simpl. rewrite Hindex. simpl. case_decide.
    + simpl. unfold _move_left, with_cursor. simpl.
      rewrite decide_True by lia. do 2 f_equal. lia.
    + rewrite decide_True by (unfold PyList.len in *; lia).
      simpl. unfold _move_left, with_cursor. simpl.
      repeat (case_decide; try lia).
      replace (cl + 1 - 1) with cl by lia. rewrite Hindex. simpl.
      f_equal. f_equal. unfold PyList.len in *. lia.
Qed.

Lemma left_right_round_trip_witness :
  let tb := Textbox [lit "uno"; lit "dos tres"; lit "fin"] 1 0 0 5 in
  _move_left tb ≫= _move_right = Some tb ∧
  _move_right tb ≫= _move_left = Some tb.
Proof.
  intros tb.
  assert (buffer_inv tb) as Htb.
  { apply (buffer_inv_intro _ _ _ _ _ (lit "dos tres")); [lia|done|].
    unfold PyList.len. simpl. lia. }
  destruct (left_right_round_trip tb Htb) as [Hleft Hright].
  split; [apply Hleft|apply Hright]; left; simpl; unfold last_line, PyList.len;
    simpl; lia.
Defined.

(** X16: no cursor key changes the text or the height of the box: when a
    cursor operation returns, lines and height are as before. *)
Theorem cursor_move_keeps_text (k : cursor_key) (tb tb' : textbox) :
  cursor_move k tb = Some tb' →
  lines tb' = lines tb ∧ height tb' = height tb.
Proof.
  intros Hmove. destruct k; simpl in Hmove;
    unfold _move_up, _move_down, _move_left, _move_right, key_home, key_end,
           _page_up, _page_down, with_cursor in Hmove;
    repeat (case_decide || case_match || simplify_option_eq); done.
Qed.

Lemma cursor_move_keeps_text_witness :
  let tb := Textbox [lit "uno"; lit "dos tres"; lit "fin"] 1 8 0 5 in
  let tb' := Textbox [lit "uno"; lit "dos tres"; lit "fin"] 2 3 0 5 in
  lines tb' = lines tb ∧ height tb' = height tb.
Proof.
  intros tb tb'. apply (cursor_move_keeps_text Down tb tb'). reflexivity.
Defined.

(** X17: what is typed is what is returned.  In a new box, the keys of a
    text made of line feeds, printable ASCII and code points above 127
    that are no command key, followed by Ctrl+G, make [edit] return the
    normalized text. *)
Theorem typed_text_returned (h : Z) (text : str) (later : list event) :
  Forall typable text →
  edit (type_keys text ++ Key 7 :: later) (new_textbox h) =
  Returned (fix_encoding text).
Proof.
  intros Htext.
  assert (at_end (new_textbox h)) as Hnew by by exists [], [].
  destruct (edit_typed text (Key 7 :: later) (new_textbox h) Hnew Htext)
    as (tb & Htb & Hlines & ->).
  destruct (_update_display_at_end tb Htb) as (tb1 & Hshow & _ & Hl1 & _).
  cbn [edit]. rewrite Hshow. rewrite decide_True by done.
  by rewrite Hl1, Hlines.
Qed.

Lemma typed_text_returned_witness :
  edit (type_keys (lit "[Charlie] Ma" ++ 195%N :: 177%N :: lit "ana" ++ LF :: lit "si") ++
        Key 7 :: [])
       (new_textbox 3) =
  Returned (fix_encoding (lit "[Charlie] Ma" ++ 195%N :: 177%N :: lit "ana" ++ LF :: lit "si")).
Proof.
  apply typed_text_returned.
  unfold typable, command_keys.
  repeat (apply Forall_cons_2; [
    first [ by left
          | right; left; by vm_compute
          | right; right; split; [by vm_compute|];
            repeat (apply not_elem_of_cons; split; [done|]); apply not_elem_of_nil ] |]).
  apply Forall_nil_2.
Defined.




(** ** More on generate_latex *)

Section more_generate.

Lemma zip_surplus_r {A B} (l : list A) (k surplus : list B) :
  (length l ≤ length k)%nat → zip l (k ++ surplus) = zip l k.
Proof.
  revert k. induction l as [|x l IH]; intros [|y k] Hlen; simpl in *;
    try done; try lia.
  f_equal. apply IH. lia.
Qed.

Lemma zip_surplus_l {A B} (l surplus : list A) (k : list B) :
  (length k ≤ length l)%nat → zip (l ++ surplus) k = zip l k.
Proof.
  revert k. induction l as [|x l IH]; intros [|y k] Hlen; simpl in *;
    try done; try lia.
  - by destruct surplus.
  - f_equal. apply IH. lia.
Qed.

Lemma lstrip_by_cons_drop drop_it c s :
  drop_it c = true → lstrip_by drop_it (c :: s) = lstrip_by drop_it s.
Proof. intros Hc. simpl. by rewrite Hc. Qed.

Lemma lstrip_by_cons_stop drop_it c s :
  drop_it c = false → lstrip_by drop_it (c :: s) = c :: s.
Proof. intros Hc. simpl. by rewrite Hc. Qed.

Lemma replace_char_map a b text :
  replace [a] [b] text = (λ c, if N.eqb c a then b else c) <$> text.
Proof.
  apply (replace_ind [a] [b] (λ t r,
           r = (λ c, if N.eqb c a then b else c) <$> t)); [done|done|..].
  - intros x t Hhit ->. cbn [starts_with] in Hhit.
    rewrite andb_true_r, N.eqb_sym in Hhit. simpl. by rewrite Hhit.
  - intros x t Hmiss ->. cbn [starts_with] in Hmiss.
    rewrite andb_true_r, N.eqb_sym in Hmiss. simpl. by rewrite Hmiss.
Qed.

End more_generate.

(** X20: the entries that one side has beyond the length of the other are
    never read: the document is the same without them. *)
Theorem generate_latex_surplus
    (title author : str) (left_dialogues right_dialogues surplus : list (str * str)) :
  ((length left_dialogues ≤ length right_dialogues)%nat →
   generate_latex title author left_dialogues (right_dialogues ++ surplus) =
   generate_latex title author left_dialogues right_dialogues) ∧
  ((length right_dialogues ≤ length left_dialogues)%nat →
   generate_latex title author (left_dialogues ++ surplus) right_dialogues =
   generate_latex title author left_dialogues right_dialogues).
Proof.
  split; intros Hlen; rewrite !generate_latex_zip.
  - rewrite zip_surplus_r by done. unfold PyList.len. rewrite length_app.
    by replace (Z.of_nat (length left_dialogues) `min`
                Z.of_nat (length right_dialogues + length surplus))
      with (Z.of_nat (length left_dialogues) `min`
            Z.of_nat (length right_dialogues)) by lia.
  - rewrite zip_surplus_l by done. unfold PyList.len. rewrite length_app.
    by replace (Z.of_nat (length left_dialogues + length surplus) `min`
                Z.of_nat (length right_dialogues))
      with (Z.of_nat (length left_dialogues) `min`
            Z.of_nat (length right_dialogues)) by lia.
Qed.

Lemma generate_latex_surplus_witness :
  let entry name text := (lit name, lit text) in
  let left_dialogues := [entry "[Charlie]" "Hola"; entry "[Vaggie]" "Adios"] in
  let right_dialogues := [entry "[Charlie]" "Hello"; entry "[Vaggie]" "Bye"] in
  let surplus := [entry "[Husk]" "No"] in
  generate_latex (lit "T") (lit "A") left_dialogues (right_dialogues ++ surplus) =
  generate_latex (lit "T") (lit "A") left_dialogues right_dialogues ∧
  generate_latex (lit "T") (lit "A") (left_dialogues ++ surplus) right_dialogues =
  generate_latex (lit "T") (lit "A") left_dialogues right_dialogues.
Proof.
  intros entry left_dialogues right_dialogues surplus.
  destruct (generate_latex_surplus (lit "T") (lit "A")
              left_dialogues right_dialogues surplus) as [Hright Hleft].
  split; [apply Hright|apply Hleft]; simpl; lia.
Defined.

(** X21: when one side has no entry the document holds no entry at all,
    whatever the other side holds: the head is followed by the closing
    text, and no exception is raised. *)
Theorem generate_latex_empty_side
    (title author : str) (dialogues : list (str * str)) :
  generate_latex title author [] dialogues =
    Some (document_head title author ++ closing) ∧
  generate_latex title author dialogues [] =
    Some (document_head title author ++ closing).
Proof.
  rewrite !generate_latex_zip. split; [done|].
  by destruct dialogues.
Qed.

(** X22: [strip('[]')], which the generator applies to a label, turns the
    parser's label for a name back into the name, as long as the name
    neither starts nor ends with a square bracket. *)
Theorem label_stripped_to_name (name : str) :
  (∀ c, head name = Some c ∨ last name = Some c →
        c ≠ LBRACKET ∧ c ≠ RBRACKET) →
  strip_chars (lit "[]") (LBRACKET :: name ++ [RBRACKET]) = name.
Proof.
  intros Hends. unfold strip_chars.
  set (drop_it := λ c : N, bool_decide (c ∈ lit "[]")).
  assert (Hkeep : ∀ c, c ≠ LBRACKET → c ≠ RBRACKET → drop_it c = false).
  { intros c H1 H2. apply bool_decide_eq_false_2.
    intros [->|[->|[]%elem_of_nil]%elem_of_cons]%elem_of_cons; done. }
  rewrite lstrip_by_cons_drop by done.
  destruct name as [|c name]; [done|].
  destruct (Hends c) as [Hc1 Hc2]; [by left|].
  cbn [app]. rewrite lstrip_by_cons_stop by by apply Hkeep.
  unfold rstrip_by.
  change (c :: name ++ [RBRACKET]) with ((c :: name) ++ [RBRACKET]).
  rewrite reverse_snoc, lstrip_by_cons_drop by done.
  destruct (reverse (c :: name)) as [|z rest] eqn:E.
  { apply (f_equal reverse) in E. by rewrite reverse_involutive in E. }
  assert (last (c :: name) = Some z) as Hlast.
  { rewrite <- (reverse_involutive (c :: name)), E, reverse_cons.
    by rewrite last_snoc. }
  destruct (Hends z) as [Hz1 Hz2]; [by right|].
  rewrite lstrip_by_cons_stop by by apply Hkeep.
  by rewrite <- E, reverse_involutive.
Qed.

Lemma label_stripped_to_name_witness :
  strip_chars (lit "[]") (LBRACKET :: lit "Angel Dust" ++ [RBRACKET]) = lit "Angel Dust".
Proof.
  apply label_stripped_to_name.
  intros c [Hc|Hc]; injection Hc as <-; done.
Defined.

(** X23: the name of the output file.  It never holds a space.  For a
    title that is not empty the safe title has the length of the title and
    consists of characters that [isalnum] accepts and of dot, underscore
    and hyphen; the empty title gives the default name. *)
Theorem output_filename_safe (isalnum : char → bool) (title : str) :
  title ≠ [] →
  (32%N ∉ output_filename isalnum title) ∧
  length (safe_title isalnum title) = length title ∧
  Forall (λ c, isalnum c = true ∨ c ∈ lit "._-") (safe_title isalnum title) ∧
  output_filename isalnum [] = lit "parallel_translation_parallel.tex".
Proof.
  intros Hne. unfold output_filename, safe_title.
  change (lit " ") with [32%N]. change (lit "_") with [95%N].
  set (kept := (λ c, if isalnum c || bool_decide (c ∈ lit "._- ") then c else 95%N)
                 <$> title).
  assert (32%N ∉ replace [32%N] [95%N] kept) as Hspace
    by by apply replace_char_gone.
  rewrite replace_char_map in *.
  set (safe := (λ c, if N.eqb c 32 then 95%N else c) <$> kept) in *.
  assert (length safe = length title) as Hlen
    by (unfold safe, kept; by rewrite !length_fmap).
  assert (Forall (λ c, isalnum c = true ∨ c ∈ lit "._-") safe) as Hall.
  { unfold safe, kept. rewrite <- list_fmap_compose. apply Forall_fmap, Forall_true.
    intros c. simpl. destruct (isalnum c) eqn:Ec; simpl.
    - destruct (N.eqb_spec c 32) as [->|]; [|by left].
      right. apply (bool_decide_unpack _). by vm_compute.
    - case_bool_decide as Hin.
      + destruct (N.eqb_spec c 32) as [->|Hc].
        * right. apply (bool_decide_unpack _). by vm_compute.
        * right. revert Hin. change (lit "._- ") with [46%N; 95%N; 45%N; 32%N].
          change (lit "._-") with [46%N; 95%N; 45%N].
          intros Hin.
          apply elem_of_cons in Hin as [->|Hin]; [by left|].
          apply elem_of_cons in Hin as [->|Hin]; [right; by left|].
          apply elem_of_cons in Hin as [->|Hin]; [right; right; by left|].
          apply elem_of_cons in Hin as [->|Hin]; [done|].
          by apply elem_of_nil in Hin.
      + right. apply (bool_decide_unpack _). by vm_compute. }
  destruct safe as [|c safe'] eqn:E; [by destruct title|].
  split; [|done].
  rewrite elem_of_app. intros [?|Hin]; [done|].
  revert Hin. apply (bool_decide_unpack (32%N ∉ lit "_parallel.tex")).
  by vm_compute.
Qed.

Lemma output_filename_safe_witness :
  let isalnum c := ((48 <=? c) && (c <=? 57) || (65 <=? c) && (c <=? 90) ||
                    (97 <=? c) && (c <=? 122))%N in
  let title := lit "Hazbin Hotel: 1/2" in
  (32%N ∉ output_filename isalnum title) ∧
  length (safe_title isalnum title) = length title ∧
  Forall (λ c, isalnum c = true ∨ c ∈ lit "._-") (safe_title isalnum title) ∧
  output_filename isalnum [] = lit "parallel_translation_parallel.tex".
Proof.
  intros isalnum title. by apply output_filename_safe.
Defined.
